(** * SAPI data model (lib/model.js): a shallow embedding and its properties

    The module keeps three kinds of records (applications, services and
    instances) in Moray buckets, checks references against UFDS, IMGAPI and
    its own buckets before it writes, and turns an instance into a VMAPI
    provisioning request.

    JavaScript objects are finite maps from field names to JSON values.  The
    four network clients ([self.moray], [self.ufds], [self.imgapi],
    [self.vmapi]) are not part of lib/model.js: they are modelled by one
    [world] value that holds their state, the requests they have served and
    an oracle of injected failures.  A function of the module that takes a
    node-style callback [cb(err, value)] becomes a state-passing function that
    returns the arguments its callback receives; an uncaught exception is a
    separate outcome.  Logging calls are left out. *)

From Stdlib Require Import ZArith String Ascii List Lia.
From stdpp Require Import base gmap strings list fin_maps pretty.

Set Warnings "-register-all".

Open Scope string_scope.
Open Scope list_scope.

(** ** JSON values and objects *)

Inductive value :=
| VNull
| VBool (b : bool)
| VNum (n : Z)
| VStr (s : string)
| VArr (l : list value)
| VObj (m : gmap string value).

(** A JavaScript object; a field that is absent reads as [undefined]. *)
Abbreviation obj := (gmap string value).

(** [ToBoolean]: what [if (x)] and [!x] test.  [None] is [undefined]. *)
Definition truthy (v : option value) : bool :=
  match v with
  | None => false
  | Some VNull => false
  | Some (VBool b) => b
  | Some (VNum n) => negb (n =? 0)%Z
  | Some (VStr s) => negb (String.eqb s EmptyString)
  | Some (VArr _) => true
  | Some (VObj _) => true
  end.

(** ** Errors *)

Inductive error :=
| Err (name message : string)
| MultiError (errs : list error).

Definition err_name (e : error) : string :=
  match e with
  | Err n _ => n
  | MultiError _ => "MultiError"
  end.

(** [new Error(msg)] *)
Definition Error (msg : string) : error := Err "Error" msg.
Definition TypeError (msg : string) : error := Err "TypeError" msg.
(** what assert-plus throws *)
Definition AssertionError (msg : string) : error := Err "AssertionError" msg.

(** The outcome of a synchronous piece of code. *)
Inductive result (A : Type) :=
| Ok (a : A)
| Throw (e : error).
Arguments Ok {A} a.
Arguments Throw {A} e.

(** ** The outside world *)

Definition APPLICATIONS := "sapi_applications".
Definition SERVICES := "sapi_services".
Definition INSTANCES := "sapi_instances".

(** Requests the module sends to its four clients. *)
Inductive request :=
| GetUser (owner_uuid : string)
| GetBucket (name : string)
| CreateBucket (name : string) (cfg : value)
| FindObjects (bucket filter : string)
| PutObject (bucket key : string) (v : obj)
| GetImage (image_uuid : string)
| CreateVm (params : obj).

Record world := World {
  (** Moray: bucket name -> key -> stored value *)
  buckets : gmap string (gmap string obj);
  (** UFDS: the users there are *)
  users : gmap string obj;
  (** IMGAPI: the images there are *)
  images : gmap string obj;
  (** the requests served so far, oldest first *)
  trace : list request;
  (** injected failures: whether the request served at the given position of
      the trace fails, and with which error *)
  fault : nat -> request -> option error;
  (** node_uuid.v4(): the identifier handed out at each draw, and the number of
      draws made *)
  v4 : nat -> string;
  drawn : nat
}.

Definition set_buckets (b : gmap string (gmap string obj)) (w : world) : world :=
  World b (users w) (images w) (trace w) (fault w) (v4 w) (drawn w).
Definition set_trace (t : list request) (w : world) : world :=
  World (buckets w) (users w) (images w) t (fault w) (v4 w) (drawn w).
Definition set_drawn (n : nat) (w : world) : world :=
  World (buckets w) (users w) (images w) (trace w) (fault w) (v4 w) n.

(** A computation that reads and changes the world. *)
Definition state (A : Type) : Type := world -> A * world.

Definition ret {A} (a : A) : state A := fun w => (a, w).
Definition bind {A B} (m : state A) (k : A -> state B) : state B :=
  fun w => let (a, w') := m w in k a w'.

Declare Scope state_scope.
Delimit Scope state_scope with state.
Notation "'let*' x ':=' m 'in' k" := (bind m (fun x => k))
  (at level 10, x pattern, m at level 100, k at level 200) : state_scope.
Open Scope state_scope.

(** Serving a request: it is appended to the trace, and the fault oracle says
    whether it fails. *)
Definition serve (r : request) : state (option error) :=
  fun w => (fault w (length (trace w)) r, set_trace (trace w ++ [r]) w).

(** *** node_uuid *)

Definition node_uuid_v4 : state string :=
  fun w => (v4 w (drawn w), set_drawn (S (drawn w)) w).

(** *** UFDS *)

(** [self.ufds.getUser(owner_uuid, cb)]: the callback receives an error or the
    user. *)
Definition ufds_getUser (owner_uuid : string) : state (option error * option obj) :=
  let* f := serve (GetUser owner_uuid) in
  fun w =>
    match f with
    | Some e => (Some e, None, w)
    | None =>
        match users w !! owner_uuid with
        | Some u => (None, Some u, w)
        | None => (Some (Err "ResourceNotFoundError"
                            (owner_uuid +:+ " does not exist")), None, w)
        end
    end.

(** *** IMGAPI *)

Definition imgapi_getImage (image_uuid : string) : state (option error * option obj) :=
  let* f := serve (GetImage image_uuid) in
  fun w =>
    match f with
    | Some e => (Some e, None, w)
    | None =>
        match images w !! image_uuid with
        | Some i => (None, Some i, w)
        | None => (Some (Err "ResourceNotFoundError"
                            ("image " +:+ image_uuid +:+ " not found")), None, w)
        end
    end.

(** *** VMAPI *)

Definition vmapi_createVm (params : obj) : state (option error) :=
  serve (CreateVm params).

(** *** Moray *)

Definition moray_getBucket (name : string) : state (option error) :=
  let* f := serve (GetBucket name) in
  fun w =>
    match f with
    | Some e => (Some e, w)
    | None =>
        match buckets w !! name with
        | Some _ => (None, w)
        | None => (Some (Err "BucketNotFoundError" (name +:+ " does not exist")), w)
        end
    end.

Definition moray_createBucket (name : string) (cfg : value) : state (option error) :=
  let* f := serve (CreateBucket name cfg) in
  fun w =>
    match f with
    | Some e => (Some e, w)
    | None =>
        match buckets w !! name with
        | Some _ => (Some (Err "BucketConflictError" (name +:+ " already exists")), w)
        | None => (None, set_buckets (<[name := ∅]> (buckets w)) w)
        end
    end.

(** [putObject] is an upsert by key.  The client checks its arguments before
    it sends anything: a key that is not a string is an assertion failure. *)
Definition moray_putObject (bucket : string) (key : option value) (v : obj)
    : world -> result (option error) * world :=
  match key with
  | Some (VStr k) =>
      let* f := serve (PutObject bucket k v) in
      fun w =>
        match f with
        | Some e => (Ok (Some e), w)
        | None =>
            match buckets w !! bucket with
            | None => (Ok (Some (Err "BucketNotFoundError"
                                    (bucket +:+ " does not exist"))), w)
            | Some b => (Ok None, set_buckets (<[bucket := <[k := v]> b]> (buckets w)) w)
            end
        end
  | _ => fun w => (Throw (AssertionError "key (string) is required"), w)
  end.

(** Filters.  The buckets of this module index one field, [uuid], so a filter
    is an opening parenthesis, [uuid=], a pattern and a closing parenthesis.
    In the pattern a star stands for any run of characters (the pattern that
    is one star matches every record that has a uuid: it is the filter
    [listObjects] sends); parentheses and backslashes are not literal
    characters, a pattern that holds one is rejected as an invalid query. *)
Definition is_star (c : ascii) : bool := Ascii.eqb c "*".
Definition is_paren (c : ascii) : bool :=
  Ascii.eqb c "(" || Ascii.eqb c ")" || Ascii.eqb c "\".

Fixpoint read_pattern (s : string) : option string :=
  match s with
  | EmptyString => None
  | String c s' =>
      match s' with
      | EmptyString => if Ascii.eqb c ")" then Some EmptyString else None
      | _ => if is_paren c then None else String c <$> read_pattern s'
      end
  end.

Definition parse_filter (f : string) : option string :=
  match f with
  | String "(" (String "u" (String "u" (String "i" (String "d" (String "=" s))))) =>
      read_pattern s
  | _ => None
  end.

Fixpoint glob (p s : string) : bool :=
  match p with
  | EmptyString => match s with EmptyString => true | _ => false end
  | String c p' =>
      if is_star c then
        (fix star (s : string) : bool :=
           glob p' s || match s with
                        | EmptyString => false
                        | String _ s' => star s'
                        end) s
      else
        match s with
        | EmptyString => false
        | String d s' => Ascii.eqb c d && glob p' s'
        end
  end.

Definition matches (pattern : string) (o : obj) : bool :=
  match o !! "uuid" with
  | Some (VStr u) => glob pattern u
  | _ => false
  end.

(** What the stream returned by [self.moray.findObjects] emits: some
    ['record'] events, then ['end'] or ['error']. *)
Inductive find_reply :=
| FindEnd (records : list obj)
| FindError (records : list obj) (e : error).

Definition moray_findObjects (bucket filter : string) : state find_reply :=
  let* f := serve (FindObjects bucket filter) in
  fun w =>
    match f with
    | Some e => (FindError [] e, w)
    | None =>
        match buckets w !! bucket with
        | None => (FindError [] (Err "BucketNotFoundError"
                                     (bucket +:+ " does not exist")), w)
        | Some b =>
            match parse_filter filter with
            | None => (FindError [] (Err "InvalidQueryError" filter), w)
            | Some p =>
                (FindEnd (List.filter (matches p) (map_to_list b).*2), w)
            end
        end
    end.

(** ** Control flow helpers *)

(** A step of an [async.waterfall]: it passes an error or nothing to its
    callback, or throws. *)
Definition task : Type := world -> result (option error) * world.

Definition lift (m : state (option error)) : task :=
  fun w => let (e, w') := m w in (Ok e, w').

(** [async.waterfall(tasks, final)]: the tasks run in order; the first error
    skips the rest.  The value is what [final] receives as [err]. *)
Fixpoint waterfall (tasks : list task) : task :=
  match tasks with
  | [] => fun w => (Ok None, w)
  | t :: rest =>
      fun w =>
        match t w with
        | (Ok None, w') => waterfall rest w'
        | (Ok (Some err), w') => (Ok (Some err), w')
        | (Throw e, w') => (Throw e, w')
        end
  end.

(** Truthiness of something that is an object or [null]/[undefined]. *)
Definition present {A} (o : option A) : bool :=
  match o with
  | Some _ => true
  | None => false
  end.

(** [assert.string(v, name)] passes exactly on strings. *)
Definition as_string (v : option value) : option string :=
  match v with
  | Some (VStr s) => Some s
  | _ => None
  end.

Definition rbind {A B} (r : result A) (k : A -> result B) : result B :=
  match r with
  | Ok a => k a
  | Throw e => Throw e
  end.

Notation "'let?' x ':=' r 'in' k" := (rbind r (fun x => k))
  (at level 10, x pattern, r at level 100, k at level 200).

(** ** lib/model.js *)

(** *** Helper functions *)

Definition validOwnerUUID (owner_uuid : string) : state (option error * bool) :=
  let* (err, user) := ufds_getUser owner_uuid in
  match err with
  | Some _ => ret (None, false)
  | None => ret (None, true)
  end.

(** [createBucket] waits for Moray twice.  Between the two replies other
    callbacks may run, so the function is given by its steps. *)
Inductive phase :=
| GetPending
| CreatePending
| Finished (err : option error).

Definition createBucket_step (name : string) (cfg : value) (p : phase) : state phase :=
  match p with
  | GetPending =>
      let* err := moray_getBucket name in
      match err with
      | None => ret (Finished None)
      | Some e =>
          if negb (String.eqb (err_name e) "BucketNotFoundError")
          then ret (Finished (Some e))
          else ret CreatePending
      end
  | CreatePending =>
      let* suberr := moray_createBucket name cfg in
      match suberr with
      | Some _ => ret (Finished (Some (Error "failed to create bucket")))
      | None => ret (Finished None)
      end
  | Finished r => ret (Finished r)
  end.


Definition findObjects (bucket filter : string) : state (option error * option (list obj)) :=
  let* res := moray_findObjects bucket filter in
  match res with
  | FindError _ err => ret (Some err, None)
  | FindEnd objs => ret (None, Some objs)
  end.

Definition listObjects (bucket : string) : state (option error * option (list obj)) :=
  findObjects bucket "(uuid=*)".

(** The second component is the record, [None] for [null]. *)
Definition getObject (bucket uuid : string) : state (option error * option obj) :=
  let filter := "(uuid=" +:+ uuid +:+ ")" in
  let* (err, objs) := findObjects bucket filter in
  match err with
  | Some e => ret (Some e, None)
  | None => ret (None, head (default [] objs))
  end.

(** *** Initialization *)

Definition bucket_cfg : value :=
  VObj {[ "index" :=
    VObj {[ "uuid" :=
      VObj (<["type" := VStr "string"]> {[ "unique" := VBool true ]}) ]} ]}.

(** [vasync.forEachParallel]: every input has its operation under way; the
    schedule says whose pending reply arrives next. *)
Fixpoint run_schedule (cfg : value) (sched : list nat) (ops : list (string * phase))
    : state (list (string * phase)) :=
  match sched with
  | [] => ret ops
  | i :: sched' =>
      match ops !! i with
      | None => run_schedule cfg sched' ops
      | Some (name, p) =>
          let* p' := createBucket_step name cfg p in
          run_schedule cfg sched' (<[i := (name, p')]> ops)
      end
  end.

Definition finished (op : string * phase) : bool :=
  match op.2 with
  | Finished _ => true
  | _ => false
  end.

Definition failure (op : string * phase) : option error :=
  match op.2 with
  | Finished (Some e) => Some e
  | _ => None
  end.

(** The callback of [forEachParallel] runs when the last operation is over;
    its [err] collects the failures. *)
Definition parallel_callback (ops : list (string * phase)) : option (option error) :=
  if forallb finished ops then
    match omap failure ops with
    | [] => Some None
    | errs => Some (Some (MultiError errs))
    end
  else None.

(** [initBuckets]: the final phases of the three operations and, when all
    three are over, the [err] passed to [cb]. *)
Definition initBuckets (sched : list nat)
    : state (list (string * phase) * option (option error)) :=
  let* ops := run_schedule bucket_cfg sched
                [(APPLICATIONS, GetPending); (SERVICES, GetPending);
                 (INSTANCES, GetPending)] in
  ret (ops, parallel_callback ops).

(** *** Applications, services, instances *)

(** What a [create] leaves behind: the caller's object as it is when the call
    is over, and what the callback received, or the exception. *)
Record created := Created {
  record_after : obj;
  outcome : result (option error * obj)
}.

Definition finish (record : obj) (r : result (option error) * world) : created * world :=
  match r with
  | (Ok err, w) => (Created record (Ok (err, record)), w)
  | (Throw e, w) => (Created record (Throw e), w)
  end.

(** [if (!o.uuid) o.uuid = node_uuid.v4();] *)
Definition ensure_uuid (o : obj) : state obj :=
  if negb (truthy (o !! "uuid"))
  then let* u := node_uuid_v4 in ret (<["uuid" := VStr u]> o)
  else ret o.

Definition put_task (bucket : string) (o : obj) : task :=
  fun w =>
    match moray_putObject bucket (o !! "uuid") o w with
    | (Ok (Some err), w') => (Ok (Some err), w')
    | (Ok None, w') => (Ok None, w')
    | (Throw e, w') => (Throw e, w')
    end.

Definition getApplication (uuid : string) := getObject APPLICATIONS uuid.
Definition getService (uuid : string) := getObject SERVICES uuid.
Definition getInstance (uuid : string) := getObject INSTANCES uuid.

Definition listApplications := listObjects APPLICATIONS.
Definition listServices := listObjects SERVICES.
Definition listInstances := listObjects INSTANCES.

(** The checks that come before the write in the three waterfalls. *)
Definition check_owner (owner_uuid : string) : task :=
  lift (let* (err, valid) := validOwnerUUID owner_uuid in
        ret (if valid then None
             else Some (Error ("invalid user: " +:+ owner_uuid)))).

Definition check_application (app_uuid : string) : task :=
  lift (let* (err, app) := getApplication app_uuid in
        ret (if present err || negb (present app)
             then Some (Error ("application " +:+ app_uuid +:+ " doesn't exist"))
             else None)).

Definition check_image (image_uuid : string) : task :=
  lift (let* (err, image) := imgapi_getImage image_uuid in
        ret (if present err || negb (present image)
             then Some (Error ("image " +:+ image_uuid +:+ " doesn't exist"))
             else None)).

Definition check_service (svc_uuid : string) : task :=
  lift (let* (err, svc) := getService svc_uuid in
        ret (if present err || negb (present svc)
             then Some (Error ("service " +:+ svc_uuid +:+ " doesn't exist"))
             else None)).

Definition createApplication (app : obj) : state created :=
  match as_string (app !! "name"), as_string (app !! "owner_uuid") with
  | Some _, Some owner_uuid =>
      let* app := ensure_uuid app in
      fun w =>
        finish app (waterfall [
          check_owner owner_uuid;
          put_task APPLICATIONS app
        ] w)
  | Some _, None =>
      ret (Created app (Throw (AssertionError "app.owner_uuid (string) is required")))
  | None, _ =>
      ret (Created app (Throw (AssertionError "app.name (string) is required")))
  end.

Definition createService (service : obj) : state created :=
  match as_string (service !! "name"), as_string (service !! "application_uuid"),
        as_string (service !! "image_uuid") with
  | Some _, Some app_uuid, Some image_uuid =>
      let* service := ensure_uuid service in
      fun w =>
        finish service (waterfall [
          check_application app_uuid;
          check_image image_uuid;
          put_task SERVICES service
        ] w)
  | Some _, Some _, None =>
      ret (Created service
             (Throw (AssertionError "service.image_uuid (string) is required")))
  | Some _, None, _ =>
      ret (Created service
             (Throw (AssertionError "service.application_uuid (string) is required")))
  | None, _, _ =>
      ret (Created service (Throw (AssertionError "service.name (string) is required")))
  end.

Definition createInstance (instance : obj) : state created :=
  match as_string (instance !! "name"), as_string (instance !! "service_uuid") with
  | Some _, Some svc_uuid =>
      let* instance := ensure_uuid instance in
      fun w =>
        finish instance (waterfall [
          check_service svc_uuid;
          put_task INSTANCES instance
        ] w)
  | Some _, None =>
      ret (Created instance
             (Throw (AssertionError "instance.service_uuid (string) is required")))
  | None, _ =>
      ret (Created instance (Throw (AssertionError "instance.name (string) is required")))
  end.

(** *** Deployment *)

(** The object [assembleParams] builds: its own properties, and whether an
    assignment under [__proto__] still reaches the accessor of
    [Object.prototype].  It does on [{}], and until the prototype is set to
    [null] or to an object that has a property [__proto__] of its own, which
    hides the accessor. *)
Record building := Building {
  own : obj;
  inherits : bool
}.

(** Whether the accessor is still reached once its setter has run on [v]:
    an object or an array has become the prototype, [null] has taken the
    prototype away, anything else was ignored. *)
Definition reaches_setter (v : value) : bool :=
  match v with
  | VNull => false
  | VObj m => match m !! "__proto__" with None => true | Some _ => false end
  | _ => true
  end.

(** [params[key] = v].  Under the key [__proto__], while the accessor is
    reached, the assignment runs its setter, and in no case is an own
    property added.  Under any other key, and under [__proto__] once the
    accessor is out of reach, the assignment adds or replaces an own
    property. *)
Definition set_prop (key : string) (v : value) (params : building) : building :=
  if String.eqb key "__proto__" && inherits params then
    Building (own params) (reaches_setter v)
  else Building (<[key := v]> (own params)) (inherits params).

(** [Object.keys(src).forEach(function (key) { params[key] = src[key]; })] *)
Definition assign (src : obj) (params : building) : building :=
  map_fold set_prop params src.

(** The own enumerable properties [Object.keys] lists: the fields of an
    object, the indices of an array; on anything else ES5's [Object.keys]
    throws. *)
Definition array_props (l : list value) : obj :=
  list_to_map (imap (fun i v => (pretty i, v)) l).

Definition merge_level (src : option value) (params : building) : result building :=
  if truthy src then
    match src with
    | Some (VObj m) => Ok (assign m params)
    | Some (VArr l) => Ok (assign (array_props l) params)
    | _ => Throw (TypeError "Object.keys called on non-object")
    end
  else Ok params.

Definition assert_string (v : option value) (name : string) : result string :=
  match as_string v with
  | Some s => Ok s
  | None => Throw (AssertionError (name +:+ " (string) is required"))
  end.

(** [app] is what [getApplication] found: [None] when it found nothing, and
    then the first property read throws.  The value is the own properties of
    the object built, which is what is sent on. *)
Definition assembleParams (app : option obj) (svc inst : obj) : result obj :=
  match app with
  | None => Throw (TypeError "Cannot read property 'params' of null")
  | Some app =>
      let params := Building ∅ true in
      let? params := merge_level (app !! "params") params in
      let? params := merge_level (svc !! "params") params in
      let? params := merge_level (inst !! "params") params in
      let? owner_uuid := assert_string (app !! "owner_uuid") "app.owner_uuid" in
      let params := set_prop "owner_uuid" (VStr owner_uuid) params in
      let? image_uuid := assert_string (svc !! "image_uuid") "svc.image_uuid" in
      let params := set_prop "image_uuid" (VStr image_uuid) params in
      let? uuid := assert_string (inst !! "uuid") "inst.uuid" in
      let params := set_prop "uuid" (VStr uuid) params in
      Ok (own params)
  end.

(** The fields [deployZone] sets on the parameters before it sends them. *)
Definition zone_fields (params : obj) : obj :=
  let params := <["brand" := VStr "joyent-minimal"]> params in
  let params := <["ram" := VNum 256]> params in
  let params := <["networks" := VArr [VStr "cda22a50-15bd-43cf-b379-be0cbac60cb4"]]> params in
  let params := <["server_uuid" := VStr "44454c4c-4800-1034-804a-b2c04f354d31"]> params in
  params.

Definition deployZone (params : obj) : state (option error) :=
  let params := zone_fields params in
  let* err := vmapi_createVm params in
  match err with
  | Some e => ret (Some e)
  | None => ret None
  end.

(** What a [deployInstance] does to its caller: the arguments of each call of
    [cb], in order, and the exception that escaped, if any. *)
Record deployed := Deployed {
  reported : list (option error);
  uncaught : option error
}.

(** The third step of the waterfall; its callback is the final one, which
    passes the error, or [null], to [cb]. *)
Definition deploy_step3 (application : option obj) (service instance : obj)
    : state deployed :=
  match assembleParams application service instance with
  | Throw e => ret (Deployed [] (Some e))
  | Ok params =>
      let* err := deployZone params in
      ret (Deployed [err] None)
  end.

(** The first two steps call [subcb(suberr)] on a failed lookup and then go
    on, as there is no [return]: the waterfall reports the error to [cb], and
    the code that follows runs with [result] undefined.  In the first step
    that is a property read of [undefined].  In the second, [subcb(null)] is
    called as well and starts the third step, where [assembleParams] reads
    [params] of the undefined application. *)
Definition deployInstance (instance : obj) : state deployed :=
  match as_string (instance !! "service_uuid") with
  | None =>
      ret (Deployed [] (Some (AssertionError "instance.service_uuid (string) is required")))
  | Some uuid =>
      let* (suberr, result) := getService uuid in
      match suberr with
      | Some e =>
          ret (Deployed [Some e]
                 (Some (TypeError "Cannot read property 'application_uuid' of undefined")))
      | None =>
          match result with
          | None =>
              ret (Deployed []
                     (Some (TypeError "Cannot read property 'application_uuid' of null")))
          | Some service =>
              match as_string (service !! "application_uuid") with
              | None => ret (Deployed [] (Some (AssertionError "undefined (string) is required")))
              | Some uuid =>
                  let* (suberr, result) := getApplication uuid in
                  match suberr with
                  | Some e =>
                      ret (Deployed [Some e]
                             (Some (TypeError "Cannot read property 'params' of undefined")))
                  | None => deploy_step3 result service instance
                  end
              end
          end
      end
  end.

(** ** Vocabulary of the statements *)

(** An identifier with no character that a filter reads specially; every
    UUID is one. *)
Fixpoint plain (u : string) : bool :=
  match u with
  | EmptyString => true
  | String c u' => negb (is_star c) && negb (is_paren c) && plain u'
  end.

(** No failure is injected: a request fails only when the service it goes
    to refuses it. *)
Definition fault_free (w : world) : Prop := forall n r, fault w n r = None.

(** Every record of every bucket is stored under its own uuid: what the
    writes of this module keep true, and what the unique index on [uuid]
    is there for. *)
Definition keyed_by_uuid (w : world) : Prop :=
  forall bucket b k (o : obj),
    buckets w !! bucket = Some b -> b !! k = Some o -> o !! "uuid" = Some (VStr k).

(** The parameters of the creation requests in a trace. *)
Definition vm_requests (t : list request) : list obj :=
  omap (fun r => match r with CreateVm p => Some p | _ => None end) t.


(** A schedule that lets each of the first [n] operations take both of its
    steps. *)
Definition fair (n : nat) (sched : list nat) : Prop :=
  forall i, i < n -> 2 <= count_occ Nat.eq_dec sched i.

(** The test [err || !found] on the reply of a lookup. *)
Definition lookup_fails (reply : option error * option obj) : bool :=
  present reply.1 || negb (present reply.2).

(** How many replies an operation of [initBuckets] may still wait for. *)
Definition steps_left (p : phase) : nat :=
  match p with
  | GetPending => 2
  | CreatePending => 1
  | Finished _ => 0
  end.

(** What holds of each operation while [initBuckets] runs on a world without
    faults: a creation is pending only for a bucket that is not there, and an
    operation that is over has succeeded and its bucket is there. *)
Definition op_ok (w : world) (op : string * phase) : Prop :=
  match op.2 with
  | GetPending => True
  | CreatePending => buckets w !! op.1 = None
  | Finished r => r = None /\ is_Some (buckets w !! op.1)
  end.

Definition ops_ok (w : world) (ops : list (string * phase)) : Prop :=
  fault_free w /\ NoDup ops.*1 /\ Forall (op_ok w) ops.


(** ** Sample data *)

Definition no_fault : nat -> request -> option error := fun _ _ => None.

Definition sample_v4 (n : nat) : string := "9b1deb4d-3b7d-4bad-9bdd-2b0d7b3dcb6" +:+ pretty n.

Definition sample_app : obj :=
  <["name" := VStr "app1"]> (<["owner_uuid" := VStr "admin"]>
    (<["uuid" := VStr "a-1"]>
      {[ "params" := VObj (<["a" := VNum 1]> (<["b" := VNum 1]>
                              {[ "uuid" := VStr "forged" ]})) ]})).

Definition sample_svc : obj :=
  <["name" := VStr "svc1"]> (<["application_uuid" := VStr "a-1"]>
    (<["image_uuid" := VStr "img-1"]> (<["uuid" := VStr "s-1"]>
      {[ "params" := VObj (<["b" := VNum 2]> {[ "c" := VNum 2 ]}) ]}))).

Definition sample_inst : obj :=
  <["name" := VStr "inst1"]> (<["service_uuid" := VStr "s-1"]>
    (<["uuid" := VStr "i-1"]>
      {[ "params" := VObj (<["c" := VNum 3]> {[ "d" := VNum 3 ]}) ]})).

(** A record without a uuid, as a client posts it. *)
Definition new_app : obj :=
  <["name" := VStr "app2"]> {[ "owner_uuid" := VStr "admin" ]}.
Definition new_svc : obj :=
  <["name" := VStr "svc2"]> (<["application_uuid" := VStr "a-1"]>
    {[ "image_uuid" := VStr "img-1" ]}).
Definition new_inst : obj :=
  <["name" := VStr "inst2"]> {[ "service_uuid" := VStr "s-1" ]}.

(** Nothing created yet: Moray has no bucket. *)
Definition fresh_world : world :=
  World ∅ {[ "admin" := {[ "login" := VStr "admin" ]} ]}
        {[ "img-1" := {[ "name" := VStr "smartos" ]} ]}
        [] no_fault sample_v4 0.

(** The three buckets exist and are empty. *)
Definition empty_world : world :=
  set_buckets (<[APPLICATIONS := ∅]> (<[SERVICES := ∅]> {[ INSTANCES := ∅ ]}))
    fresh_world.

(** One application, one service and one instance are stored. *)
Definition stocked_world : world :=
  set_buckets (<[APPLICATIONS := {[ "a-1" := sample_app ]}]>
                 (<[SERVICES := {[ "s-1" := sample_svc ]}]>
                    {[ INSTANCES := {[ "i-1" := sample_inst ]} ]}))
    fresh_world.

Definition storage_down : error := Err "ConnectionError" "moray: connection refused".

(** [stocked_world] with every request failing. *)
Definition broken_world : world :=
  World (buckets stocked_world) (users stocked_world) (images stocked_world)
        [] (fun _ _ => Some storage_down) sample_v4 0.

(** An application whose owner UFDS does not know. *)
Definition orphan_app : obj :=
  <["name" := VStr "app3"]> {[ "owner_uuid" := VStr "nobody" ]}.

(** A service that refers to an image IMGAPI does not have. *)
Definition imageless_svc : obj :=
  <["name" := VStr "svc3"]> (<["application_uuid" := VStr "a-1"]>
    {[ "image_uuid" := VStr "img-9" ]}).

(** The parameters of the zone of [sample_inst]. *)
Definition sample_params : obj :=
  <["a" := VNum 1]> (<["b" := VNum 2]> (<["c" := VNum 3]> (<["d" := VNum 3]>
    (<["owner_uuid" := VStr "admin"]> (<["image_uuid" := VStr "img-1"]>
       {[ "uuid" := VStr "i-1" ]}))))).

(** ** Vocabulary of the further statements *)

(** The clients other than the store are as they were: the same users, the
    same images, the same injected failures, the same generator. *)
Definition same_clients (w w' : world) : Prop :=
  users w' = users w /\ images w' = images w /\ fault w' = fault w /\ v4 w' = v4 w.

(** A step of a waterfall that sends one request and passes an error or
    nothing on: it neither throws nor writes. *)
Definition pure_check (t : task) : Prop :=
  forall w, exists e r, t w = (Ok e, set_trace (trace w ++ [r]) w).

(** The three ways a create goes: it throws on the record as it is,
    before anything else happens; or, with [o'] the record that has its uuid
    and some requests of the checks served, a check reports an error; or the
    checks pass and the write is attempted. *)
Definition create_shape (bucket : string) (o : obj) (w : world)
    (run : created * world) : Prop :=
  (exists e, run = (Created o (Throw e), w)) \/
  exists n rs,
    let o' := (ensure_uuid o w).1 in
    let w1 := set_trace (trace w ++ rs) (set_drawn n w) in
    (exists e, run = (Created o' (Ok (Some e, o')), w1)) \/
    run = finish o' (put_task bucket o' w1).

(** The calls a client of the module makes, and the world each leaves. *)
Inductive call :=
| InitBuckets (sched : list nat)
| CreateApplication (app : obj)
| CreateService (service : obj)
| CreateInstance (instance : obj)
| GetApplication (uuid : string)
| GetService (uuid : string)
| GetInstance (uuid : string)
| ListApplications
| ListServices
| ListInstances
| DeployInstance (instance : obj).

Definition run_call (c : call) (w : world) : world :=
  match c with
  | InitBuckets sched => (initBuckets sched w).2
  | CreateApplication app => (createApplication app w).2
  | CreateService service => (createService service w).2
  | CreateInstance instance => (createInstance instance w).2
  | GetApplication uuid => (getApplication uuid w).2
  | GetService uuid => (getService uuid w).2
  | GetInstance uuid => (getInstance uuid w).2
  | ListApplications => (listApplications w).2
  | ListServices => (listServices w).2
  | ListInstances => (listInstances w).2
  | DeployInstance instance => (deployInstance instance w).2
  end.

Definition run_calls (cs : list call) (w : world) : world :=
  foldl (fun w c => run_call c w) w cs.

(** A service is stored, its application is not. *)
Definition orphaned_world : world :=
  set_buckets (<[APPLICATIONS := ∅]>
                 (<[SERVICES := {[ "s-1" := sample_svc ]}]> {[ INSTANCES := ∅ ]}))
    fresh_world.

(** [stocked_world] with Moray refusing every write. *)
Definition read_only_world : world :=
  World (buckets stocked_world) (users stocked_world) (images stocked_world) []
        (fun _ r => match r with
                    | PutObject _ _ _ => Some storage_down
                    | _ => None
                    end)
        sample_v4 0.

(** An application that says [params: null], and a service whose params are
    an array. *)
Definition null_params_app : obj :=
  <["params" := VNull]> new_app.
Definition array_params_svc : obj :=
  <["params" := VArr [VStr "x"; VStr "y"]]> sample_svc.

(** [stocked_world] with the instances bucket emptied. *)
Definition no_instance_world : world :=
  set_buckets (<[INSTANCES := ∅]> (buckets stocked_world)) stocked_world.

(** Another application under the uuid of [sample_app]. *)
Definition rival_app : obj :=
  <["name" := VStr "rival"]> (<["owner_uuid" := VStr "admin"]>
    {[ "uuid" := VStr "a-1" ]}).

(** ** The claimed merge, and inputs on which the code departs from it *)

(** What an assignment of the property of [src] under [__proto__], if it has
    one, leaves of the reach of the accessor. *)
Definition accessor_kept (v : option value) : bool :=
  from_option reaches_setter true v.

(** The map as the specification words it: the params of the application,
    then of the service, then of the instance, a later level overwriting an
    earlier one, and then the three derived fields. *)
Definition merged_params (pa ps pi : obj) (owner image uuid : string) : obj :=
  <["uuid" := VStr uuid]>
    (<["image_uuid" := VStr image]>
      (<["owner_uuid" := VStr owner]> (pi ∪ (ps ∪ pa)))).

(** The params of a service that have a key [__proto__], as [JSON.parse]
    makes them of a body that spells it out. *)
Definition proto_params : obj :=
  <["__proto__" := VObj {[ "ram" := VNum 1024 ]}]>
    (<["b" := VNum 2]> {[ "c" := VNum 2 ]}).

Definition proto_svc : obj :=
  <["params" := VObj proto_params]> sample_svc.

(** A service that names the application [*], and an application that
    brings [*] as its uuid. *)
Definition star_svc : obj :=
  <["name" := VStr "svc4"]> (<["application_uuid" := VStr "*"]>
    (<["image_uuid" := VStr "img-1"]> {[ "uuid" := VStr "s-4" ]})).

Definition star_app : obj :=
  <["name" := VStr "app4"]> (<["owner_uuid" := VStr "admin"]>
    {[ "uuid" := VStr "*" ]}).

(** * Properties *)

(** ** The clients *)

Lemma set_drawn_same w : set_drawn (drawn w) w = w.
Proof. by destruct w. Qed.

Lemma ensure_uuid_run (o : obj) w :
  ensure_uuid o w =
    if truthy (o !! "uuid") then (o, w)
    else (<["uuid" := VStr (v4 w (drawn w))]> o, set_drawn (S (drawn w)) w).
Proof. unfold ensure_uuid. by destruct (truthy (o !! "uuid")). Qed.

Lemma read_pattern_plain u : plain u = true -> read_pattern (u +:+ ")") = Some u.
Proof.
  induction u as [|c u IH]; [done|]. simpl. intros H.
  apply andb_prop in H as [H Hu]. apply andb_prop in H as [_ Hc].
  apply negb_true_iff in Hc. rewrite Hc, (IH Hu). by destruct u.
Qed.

Lemma parse_filter_plain u :
  plain u = true -> parse_filter ("(uuid=" +:+ u +:+ ")") = Some u.
Proof. apply read_pattern_plain. Qed.

Lemma glob_plain p s : plain p = true -> glob p s = true <-> p = s.
Proof.
  revert s. induction p as [|c p IH]; intros s H.
  - destruct s; simpl; split; congruence.
  - simpl in H. apply andb_prop in H as [H Hp]. apply andb_prop in H as [Hc _].
    apply negb_true_iff in Hc. simpl. rewrite Hc. destruct s as [|d s].
    + split; congruence.
    + rewrite andb_true_iff, (IH s Hp), Ascii.eqb_eq. split.
      * by intros [-> ->].
      * intros [= -> ->]. done.
Qed.

Lemma glob_star s : glob "*" s = true.
Proof. induction s as [|c s IH]; [done|]. simpl in *. by rewrite IH. Qed.

(** Under a plain pattern a bucket keyed by uuid has at most the record stored
    under that key to offer. *)
Lemma filter_plain (b : gmap string obj) u :
  plain u = true ->
  (forall k o, b !! k = Some o -> o !! "uuid" = Some (VStr k)) ->
  List.filter (matches u) (map_to_list b).*2 =
    match b !! u with Some o => [o] | None => [] end.
Proof.
  intros Hu. induction b as [|k o b Hk Hfirst IH] using map_first_key_ind.
  - by rewrite map_to_list_empty.
  - intros Hb. rewrite map_to_list_insert_first_key by done.
    rewrite fmap_cons. cbn [List.filter snd].
    assert (Ho : o !! "uuid" = Some (VStr k)).
    { apply Hb. by rewrite lookup_insert_eq. }
    assert (Hb' : forall k' o', b !! k' = Some o' -> o' !! "uuid" = Some (VStr k')).
    { intros k' o' H. apply Hb. rewrite lookup_insert_ne; [done|]. congruence. }
    rewrite (IH Hb'). unfold matches at 1. rewrite Ho.
    destruct (decide (k = u)) as [->|Hne].
    + rewrite lookup_insert_eq, Hk. by rewrite (proj2 (glob_plain u u Hu) eq_refl).
    + rewrite lookup_insert_ne by done.
      destruct (glob u k) eqn:Hg; [|done].
      apply glob_plain in Hg; [|done]. congruence.
Qed.

Lemma findObjects_run bucket flt w :
  findObjects bucket flt w =
    (match fault w (length (trace w)) (FindObjects bucket flt) with
     | Some e => (Some e, None)
     | None =>
         match buckets w !! bucket with
         | None => (Some (Err "BucketNotFoundError" (bucket +:+ " does not exist")), None)
         | Some b =>
             match parse_filter flt with
             | None => (Some (Err "InvalidQueryError" flt), None)
             | Some p => (None, Some (List.filter (matches p) (map_to_list b).*2))
             end
         end
     end,
     set_trace (trace w ++ [FindObjects bucket flt]) w).
Proof.
  unfold findObjects, moray_findObjects, bind, serve, ret. simpl.
  destruct (fault w _ _); [done|].
  destruct (buckets w !! bucket); [|done].
  by destruct (parse_filter flt).
Qed.

Lemma getObject_world bucket uuid w :
  (getObject bucket uuid w).2 =
    set_trace (trace w ++ [FindObjects bucket ("(uuid=" +:+ uuid +:+ ")")]) w.
Proof.
  unfold getObject, bind. rewrite findObjects_run.
  destruct (fault w _ _); [done|].
  destruct (buckets w !! bucket); [|done].
  by destruct (parse_filter _).
Qed.

(** The reply of a lookup does not depend on how many identifiers were
    drawn. *)
Lemma getObject_drawn bucket uuid n w :
  (getObject bucket uuid (set_drawn n w)).1 = (getObject bucket uuid w).1.
Proof.
  unfold getObject, bind. rewrite !findObjects_run. simpl.
  repeat case_match; simplify_eq; done.
Qed.

(** A lookup fails exactly when the query it sends fails. *)
Lemma getObject_error bucket uuid w e :
  (getObject bucket uuid w).1.1 = Some e <->
  (findObjects bucket ("(uuid=" +:+ uuid +:+ ")") w).1.1 = Some e.
Proof.
  unfold getObject, bind.
  destruct (findObjects bucket _ w) as [[[e'|] objs] w']; simpl; done.
Qed.

(** A plain identifier that no record carries is reported as not found. *)
Lemma getObject_plain bucket uuid w b :
  plain uuid = true ->
  fault w (length (trace w)) (FindObjects bucket ("(uuid=" +:+ uuid +:+ ")")) = None ->
  buckets w !! bucket = Some b ->
  (forall k o, b !! k = Some o -> o !! "uuid" = Some (VStr k)) ->
  (getObject bucket uuid w).1 = (None, b !! uuid).
Proof.
  intros Hu Hf Hb Hk. unfold getObject, bind. rewrite findObjects_run, Hf, Hb.
  rewrite (parse_filter_plain _ Hu). simpl. rewrite (filter_plain b uuid Hu Hk).
  by destruct (b !! uuid).
Qed.

Lemma ufds_getUser_run owner w :
  ufds_getUser owner w =
    (match fault w (length (trace w)) (GetUser owner) with
     | Some e => (Some e, None)
     | None =>
         match users w !! owner with
         | Some u => (None, Some u)
         | None => (Some (Err "ResourceNotFoundError" (owner +:+ " does not exist")), None)
         end
     end,
     set_trace (trace w ++ [GetUser owner]) w).
Proof.
  unfold ufds_getUser, bind, serve. simpl.
  destruct (fault w _ _); [done|]. by destruct (users w !! owner).
Qed.

Lemma imgapi_getImage_run image w :
  imgapi_getImage image w =
    (match fault w (length (trace w)) (GetImage image) with
     | Some e => (Some e, None)
     | None =>
         match images w !! image with
         | Some i => (None, Some i)
         | None => (Some (Err "ResourceNotFoundError" ("image " +:+ image +:+ " not found")), None)
         end
     end,
     set_trace (trace w ++ [GetImage image]) w).
Proof.
  unfold imgapi_getImage, bind, serve. simpl.
  destruct (fault w _ _); [done|]. by destruct (images w !! image).
Qed.

Lemma validOwnerUUID_run owner w :
  validOwnerUUID owner w =
    ((None, negb (present (ufds_getUser owner w).1.1)),
     set_trace (trace w ++ [GetUser owner]) w).
Proof.
  unfold validOwnerUUID, bind. rewrite ufds_getUser_run. simpl.
  destruct (fault w _ _); [done|]. by destruct (users w !! owner).
Qed.

Lemma ufds_getUser_drawn owner n w :
  (ufds_getUser owner (set_drawn n w)).1 = (ufds_getUser owner w).1.
Proof. by rewrite !ufds_getUser_run. Qed.

Lemma imgapi_getImage_drawn image n w :
  (imgapi_getImage image (set_drawn n w)).1 = (imgapi_getImage image w).1.
Proof. by rewrite !imgapi_getImage_run. Qed.

(** ** Parameter assembly *)

Lemma set_prop_own key v (p : building) :
  key <> "__proto__" ->
  set_prop key v p = Building (<[key := v]> (own p)) (inherits p).
Proof.
  intros Hne. unfold set_prop. apply String.eqb_neq in Hne. by rewrite Hne.
Qed.

(** What the loop over the keys comes to: the properties of [src] are laid
    over the own properties, but for [__proto__], which is left out while the
    accessor is reached. *)
Lemma assign_run (src : obj) (p : building) :
  assign src p =
    Building ((if inherits p then delete "__proto__" src else src) ∪ own p)
             (inherits p && accessor_kept (src !! "__proto__")).
Proof.
  unfold assign.
  apply (map_fold_weak_ind (fun r (m : obj) =>
    r = Building ((if inherits p then delete "__proto__" m else m) ∪ own p)
                 (inherits p && accessor_kept (m !! "__proto__")))).
  - rewrite lookup_empty, delete_empty. cbn. rewrite andb_true_r.
    destruct p as [o [|]]; cbn; by rewrite (left_id_L ∅ (∪)).
  - intros key v m r Hm ->. destruct (decide (key = "__proto__")) as [->|Hne].
    + rewrite Hm, lookup_insert_eq, delete_insert_eq. cbn. rewrite andb_true_r.
      unfold set_prop. cbn. destruct (inherits p); cbn.
      * done.
      * by rewrite insert_union_l.
    + rewrite set_prop_own, lookup_insert_ne by done. cbn. f_equal.
      destruct (inherits p).
      * by rewrite delete_insert_ne, insert_union_l.
      * by rewrite insert_union_l.
Qed.

(** Params that have no key [__proto__] are laid over what is there. *)
Lemma merge_level_params (p : option obj) (b : building) :
  default ∅ p !! "__proto__" = None ->
  merge_level (VObj <$> p) b = Ok (Building (default ∅ p ∪ own b) (inherits b)).
Proof.
  intros Hp. destruct p as [m|]; cbn in Hp.
  - change (Ok (assign m b) = Ok (Building (m ∪ own b) (inherits b))).
    rewrite assign_run, Hp, (delete_id _ _ Hp). cbn. rewrite andb_true_r.
    by destruct (inherits b).
  - change (Ok b = Ok (Building (∅ ∪ own b) (inherits b))).
    rewrite (left_id_L ∅ (∪)). by destruct b.
Qed.

(** X21: on an application, a service and an instance whose [params] are each
    absent or a map without the key [__proto__], and whose [owner_uuid],
    [image_uuid] and [uuid] are strings, [assembleParams] returns the
    instance's params laid over the service's laid over the application's
    (the union is left-biased: on a shared key the later level wins), with
    [owner_uuid], [image_uuid] and [uuid] then set from the application, the
    service and the instance, whatever the params said for these three
    names. *)
Theorem assembleParams_merge (app svc inst : obj) (pa ps pi : option obj)
    (owner image uuid : string) :
  app !! "params" = VObj <$> pa ->
  svc !! "params" = VObj <$> ps ->
  inst !! "params" = VObj <$> pi ->
  default ∅ pa !! "__proto__" = None ->
  default ∅ ps !! "__proto__" = None ->
  default ∅ pi !! "__proto__" = None ->
  app !! "owner_uuid" = Some (VStr owner) ->
  svc !! "image_uuid" = Some (VStr image) ->
  inst !! "uuid" = Some (VStr uuid) ->
  assembleParams (Some app) svc inst =
    Ok (<["uuid" := VStr uuid]>
         (<["image_uuid" := VStr image]>
           (<["owner_uuid" := VStr owner]>
             (default ∅ pi ∪ (default ∅ ps ∪ default ∅ pa))))).
Proof.
  intros Ha Hs Hi Hna Hns Hni Ho Him Hu.
  unfold assembleParams. rewrite Ha, Hs, Hi, Ho, Him, Hu.
  rewrite merge_level_params by done. cbn [rbind own inherits].
  rewrite merge_level_params by done. cbn [rbind own inherits].
  rewrite merge_level_params by done.
  cbn [rbind own inherits assert_string as_string].
  rewrite !set_prop_own by done. cbn [own].
  by rewrite (right_id_L ∅ (∪)).
Qed.

Lemma assembleParams_merge_witness :
  assembleParams (Some sample_app) sample_svc sample_inst = Ok sample_params.
Proof.
  exact (assembleParams_merge sample_app sample_svc sample_inst
           (Some (<["a" := VNum 1]> (<["b" := VNum 1]> {[ "uuid" := VStr "forged" ]})))
           (Some (<["b" := VNum 2]> {[ "c" := VNum 2 ]}))
           (Some (<["c" := VNum 3]> {[ "d" := VNum 3 ]}))
           "admin" "img-1" "i-1" eq_refl eq_refl eq_refl eq_refl eq_refl eq_refl
           eq_refl eq_refl eq_refl).
Defined.

(** C1 at an input where the code departs from it: the params of the service
    have the key [__proto__].  The assignment under that key sets the
    prototype of the object being built and adds no property, so the
    properties of the object [assembleParams] returns, all else as the claim
    has it, lack that key, which the merge the claim describes has.  Under a
    number the assignment does nothing at all. *)
Theorem assembleParams_drops_proto_key :
  let pa : obj := <["a" := VNum 1]> (<["b" := VNum 1]> {[ "uuid" := VStr "forged" ]}) in
  let pi : obj := <["c" := VNum 3]> {[ "d" := VNum 3 ]} in
  sample_app !! "params" = Some (VObj pa) /\
  proto_svc !! "params" = Some (VObj proto_params) /\
  sample_inst !! "params" = Some (VObj pi) /\
  proto_params !! "__proto__" = Some (VObj {[ "ram" := VNum 1024 ]}) /\
  assembleParams (Some sample_app) proto_svc sample_inst =
    Ok (delete "__proto__" (merged_params pa proto_params pi "admin" "img-1" "i-1")) /\
  merged_params pa proto_params pi "admin" "img-1" "i-1" !! "__proto__" =
    Some (VObj {[ "ram" := VNum 1024 ]}) /\
  assembleParams (Some sample_app)
      (<["params" := VObj (<["__proto__" := VNum 5]> {[ "b" := VNum 2 ]})]> sample_svc)
      sample_inst =
    Ok sample_params /\
  sample_params !! "__proto__" = None.
Proof. repeat split; reflexivity. Qed.

(** ** The steps of the waterfalls *)

Lemma check_owner_run owner w :
  check_owner owner w =
    (Ok (if present (ufds_getUser owner w).1.1
         then Some (Error ("invalid user: " +:+ owner)) else None),
     set_trace (trace w ++ [GetUser owner]) w).
Proof.
  unfold check_owner, lift, bind. rewrite validOwnerUUID_run. simpl.
  by destruct (present _).
Qed.

Lemma check_object_run bucket uuid (msg : string) w :
  lift (let* (err, found) := getObject bucket uuid in
        ret (if present err || negb (present found) then Some (Error msg) else None)) w =
    (Ok (if lookup_fails (getObject bucket uuid w).1 then Some (Error msg) else None),
     set_trace (trace w ++ [FindObjects bucket ("(uuid=" +:+ uuid +:+ ")")]) w).
Proof.
  unfold lift, bind, lookup_fails. rewrite <- getObject_world.
  by destruct (getObject bucket uuid w) as [[err found] w'].
Qed.

Lemma check_application_run uuid w :
  check_application uuid w =
    (Ok (if lookup_fails (getApplication uuid w).1
         then Some (Error ("application " +:+ uuid +:+ " doesn't exist")) else None),
     set_trace (trace w ++ [FindObjects APPLICATIONS ("(uuid=" +:+ uuid +:+ ")")]) w).
Proof. apply check_object_run. Qed.

Lemma check_service_run uuid w :
  check_service uuid w =
    (Ok (if lookup_fails (getService uuid w).1
         then Some (Error ("service " +:+ uuid +:+ " doesn't exist")) else None),
     set_trace (trace w ++ [FindObjects SERVICES ("(uuid=" +:+ uuid +:+ ")")]) w).
Proof. apply check_object_run. Qed.

Lemma check_image_run uuid w :
  check_image uuid w =
    (Ok (if lookup_fails (imgapi_getImage uuid w).1
         then Some (Error ("image " +:+ uuid +:+ " doesn't exist")) else None),
     set_trace (trace w ++ [GetImage uuid]) w).
Proof.
  unfold check_image, lift, bind, lookup_fails. rewrite imgapi_getImage_run. simpl.
  destruct (fault w _ _); [done|]. by destruct (images w !! uuid).
Qed.

Lemma put_task_run bucket (o : obj) w :
  put_task bucket o w =
    match as_string (o !! "uuid") with
    | None => (Throw (AssertionError "key (string) is required"), w)
    | Some k =>
        let w' := set_trace (trace w ++ [PutObject bucket k o]) w in
        match fault w (length (trace w)) (PutObject bucket k o) with
        | Some e => (Ok (Some e), w')
        | None =>
            match buckets w !! bucket with
            | None => (Ok (Some (Err "BucketNotFoundError" (bucket +:+ " does not exist"))), w')
            | Some b => (Ok None, set_buckets (<[bucket := <[k := o]> b]> (buckets w)) w')
            end
        end
    end.
Proof.
  unfold put_task, moray_putObject, as_string.
  destruct (o !! "uuid") as [[]|]; try done.
  unfold bind, serve. simpl.
  destruct (fault w _ _); [done|]. by destruct (buckets w !! bucket).
Qed.

Lemma createApplication_run (app : obj) name owner w :
  app !! "name" = Some (VStr name) ->
  app !! "owner_uuid" = Some (VStr owner) ->
  createApplication app w =
    finish (ensure_uuid app w).1
      (waterfall [check_owner owner; put_task APPLICATIONS (ensure_uuid app w).1]
         (ensure_uuid app w).2).
Proof.
  intros Hn Ho. unfold createApplication. rewrite Hn, Ho. cbn [as_string].
  unfold bind. by destruct (ensure_uuid app w).
Qed.

Lemma createService_run (service : obj) name app_uuid image_uuid w :
  service !! "name" = Some (VStr name) ->
  service !! "application_uuid" = Some (VStr app_uuid) ->
  service !! "image_uuid" = Some (VStr image_uuid) ->
  createService service w =
    finish (ensure_uuid service w).1
      (waterfall [check_application app_uuid; check_image image_uuid;
                  put_task SERVICES (ensure_uuid service w).1]
         (ensure_uuid service w).2).
Proof.
  intros Hn Ha Hi. unfold createService. rewrite Hn, Ha, Hi. cbn [as_string].
  unfold bind. by destruct (ensure_uuid service w).
Qed.

Lemma createInstance_run (instance : obj) name svc_uuid w :
  instance !! "name" = Some (VStr name) ->
  instance !! "service_uuid" = Some (VStr svc_uuid) ->
  createInstance instance w =
    finish (ensure_uuid instance w).1
      (waterfall [check_service svc_uuid; put_task INSTANCES (ensure_uuid instance w).1]
         (ensure_uuid instance w).2).
Proof.
  intros Hn Hs. unfold createInstance. rewrite Hn, Hs. cbn [as_string].
  unfold bind. by destruct (ensure_uuid instance w).
Qed.

(** What [ensure_uuid] leaves of the world: all but the count of draws. *)
Lemma ensure_uuid_world (o : obj) w :
  exists n, (ensure_uuid o w).2 = set_drawn n w.
Proof.
  rewrite ensure_uuid_run. destruct (truthy _).
  - exists (drawn w). by rewrite set_drawn_same.
  - by eexists.
Qed.

(** ** Owner check *)

(** C4: when the UFDS lookup of the owner fails, with whatever error, the
    owner check answers [false] and reports no error, and [createApplication]
    fails with the one error [invalid user: <owner_uuid>], in which nothing of
    the lookup error is left; nothing is written. *)
Theorem validOwnerUUID_hides_lookup_error (app : obj) (name owner : string)
    (w : world) (e : error) :
  app !! "name" = Some (VStr name) ->
  app !! "owner_uuid" = Some (VStr owner) ->
  (ufds_getUser owner w).1.1 = Some e ->
  (validOwnerUUID owner w).1 = (None, false) /\
  outcome (createApplication app w).1 =
    Ok (Some (Error ("invalid user: " +:+ owner)),
        record_after (createApplication app w).1) /\
  buckets (createApplication app w).2 = buckets w.
Proof.
  intros Hn Ho He. split.
  - rewrite validOwnerUUID_run, He. done.
  - rewrite (createApplication_run app name owner w Hn Ho).
    destruct (ensure_uuid_world app w) as [n ->].
    cbn [waterfall]. rewrite check_owner_run, ufds_getUser_drawn, He. done.
Qed.

Lemma validOwnerUUID_hides_lookup_error_witness :
  (validOwnerUUID "nobody" empty_world).1 = (None, false) /\
  outcome (createApplication orphan_app empty_world).1 =
    Ok (Some (Error "invalid user: nobody"),
        record_after (createApplication orphan_app empty_world).1) /\
  (validOwnerUUID "admin" broken_world).1 = (None, false) /\
  outcome (createApplication new_app broken_world).1 =
    Ok (Some (Error "invalid user: admin"),
        record_after (createApplication new_app broken_world).1).
Proof.
  destruct (validOwnerUUID_hides_lookup_error orphan_app "app3" "nobody" empty_world
              (Err "ResourceNotFoundError" "nobody does not exist")
              eq_refl eq_refl eq_refl) as (H1 & H2 & _).
  destruct (validOwnerUUID_hides_lookup_error new_app "app2" "admin" broken_world
              storage_down eq_refl eq_refl eq_refl) as (H3 & H4 & _).
  exact (conj H1 (conj H2 (conj H3 H4))).
Defined.

(** ** Creation: checks before the write *)

Lemma finish_record (r : obj) x : record_after (finish r x).1 = r.
Proof. by destruct x as [[] ?]. Qed.

Lemma finish_world (r : obj) x : (finish r x).2 = x.2.
Proof. by destruct x as [[] ?]. Qed.

Lemma finish_outcome (r : obj) x :
  outcome (finish r x).1 =
    match x.1 with Ok err => Ok (err, r) | Throw e => Throw e end.
Proof. by destruct x as [[] ?]. Qed.

Lemma createApplication_checks (app : obj) name owner w :
  app !! "name" = Some (VStr name) ->
  app !! "owner_uuid" = Some (VStr owner) ->
  let run := createApplication app w in
  let app' := record_after run.1 in
  (present (ufds_getUser owner w).1.1 = true ->
     outcome run.1 = Ok (Some (Error ("invalid user: " +:+ owner)), app') /\
     buckets run.2 = buckets w /\
     trace run.2 = trace w ++ [GetUser owner]) /\
  (present (ufds_getUser owner w).1.1 = false ->
     match as_string (app' !! "uuid") with
     | Some k => trace run.2 = trace w ++ [GetUser owner; PutObject APPLICATIONS k app']
     | None => trace run.2 = trace w ++ [GetUser owner] /\ buckets run.2 = buckets w
     end).
Proof.
  intros Hn Ho run app'. subst run app'.
  rewrite (createApplication_run app name owner w Hn Ho).
  destruct (ensure_uuid_world app w) as [n ->].
  generalize (ensure_uuid app w).1. intros app'.
  rewrite !finish_record, !finish_world, !finish_outcome.
  cbn [waterfall]. rewrite check_owner_run, ufds_getUser_drawn.
  destruct (present (ufds_getUser owner w).1.1); split; try done.
  intros _. rewrite put_task_run.
  destruct (as_string (app' !! "uuid")) as [k|] eqn:Hk; cbn -[as_string].
  - rewrite <- app_assoc.
    destruct (fault w _ _); [done|]. by destruct (buckets w !! APPLICATIONS).
  - done.
Qed.

Lemma createService_checks (service : obj) name app_uuid image_uuid w :
  service !! "name" = Some (VStr name) ->
  service !! "application_uuid" = Some (VStr app_uuid) ->
  service !! "image_uuid" = Some (VStr image_uuid) ->
  let run := createService service w in
  let service' := record_after run.1 in
  let find := FindObjects APPLICATIONS ("(uuid=" +:+ app_uuid +:+ ")") in
  let app_reply := (getApplication app_uuid w).1 in
  let image_reply := (imgapi_getImage image_uuid (getApplication app_uuid w).2).1 in
  (lookup_fails app_reply = true ->
     outcome run.1 =
       Ok (Some (Error ("application " +:+ app_uuid +:+ " doesn't exist")), service') /\
     buckets run.2 = buckets w /\
     trace run.2 = trace w ++ [find]) /\
  (lookup_fails app_reply = false -> lookup_fails image_reply = true ->
     outcome run.1 =
       Ok (Some (Error ("image " +:+ image_uuid +:+ " doesn't exist")), service') /\
     buckets run.2 = buckets w /\
     trace run.2 = trace w ++ [find; GetImage image_uuid]) /\
  (lookup_fails app_reply = false -> lookup_fails image_reply = false ->
     match as_string (service' !! "uuid") with
     | Some k =>
         trace run.2 = trace w ++ [find; GetImage image_uuid; PutObject SERVICES k service']
     | None =>
         trace run.2 = trace w ++ [find; GetImage image_uuid] /\ buckets run.2 = buckets w
     end).
Proof.
  intros Hn Ha Hi run service' find app_reply image_reply.
  subst run service' find app_reply image_reply.
  rewrite (createService_run service name app_uuid image_uuid w Hn Ha Hi).
  destruct (ensure_uuid_world service w) as [n ->].
  generalize (ensure_uuid service w).1. intros service'.
  rewrite !finish_record, !finish_world, !finish_outcome.
  cbn [waterfall]. unfold getApplication.
  rewrite check_application_run. unfold getApplication.
  rewrite getObject_drawn, getObject_world.
  destruct (lookup_fails (getObject APPLICATIONS app_uuid w).1);
    (split; [|split]); try done.
  - rewrite check_image_run. rewrite !imgapi_getImage_run. cbn -[as_string].
    destruct (lookup_fails _); [|done]. intros _ _. by rewrite <- app_assoc.
  - rewrite check_image_run. rewrite !imgapi_getImage_run. cbn -[as_string].
    destruct (lookup_fails _); [done|]. intros _ _. rewrite put_task_run.
    destruct (as_string (service' !! "uuid")) as [k|] eqn:Hk; cbn -[as_string].
    + rewrite <- !app_assoc. rewrite !length_app. cbn -[as_string].
      destruct (fault w _ _); [done|]. by destruct (buckets w !! SERVICES).
    + by rewrite <- app_assoc.
Qed.

Lemma createInstance_checks (instance : obj) name svc_uuid w :
  instance !! "name" = Some (VStr name) ->
  instance !! "service_uuid" = Some (VStr svc_uuid) ->
  let run := createInstance instance w in
  let instance' := record_after run.1 in
  let find := FindObjects SERVICES ("(uuid=" +:+ svc_uuid +:+ ")") in
  (lookup_fails (getService svc_uuid w).1 = true ->
     outcome run.1 =
       Ok (Some (Error ("service " +:+ svc_uuid +:+ " doesn't exist")), instance') /\
     buckets run.2 = buckets w /\
     trace run.2 = trace w ++ [find]) /\
  (lookup_fails (getService svc_uuid w).1 = false ->
     match as_string (instance' !! "uuid") with
     | Some k => trace run.2 = trace w ++ [find; PutObject INSTANCES k instance']
     | None => trace run.2 = trace w ++ [find] /\ buckets run.2 = buckets w
     end).
Proof.
  intros Hn Hs run instance' find. subst run instance' find.
  rewrite (createInstance_run instance name svc_uuid w Hn Hs).
  destruct (ensure_uuid_world instance w) as [n ->].
  generalize (ensure_uuid instance w).1. intros instance'.
  rewrite !finish_record, !finish_world, !finish_outcome.
  cbn [waterfall]. rewrite check_service_run. unfold getService.
  rewrite getObject_drawn.
  destruct (lookup_fails (getObject SERVICES svc_uuid w).1); split; try done.
  intros _. rewrite put_task_run.
  destruct (as_string (instance' !! "uuid")) as [k|] eqn:Hk; cbn -[as_string].
  - rewrite <- app_assoc.
    destruct (fault w _ _); [done|]. by destruct (buckets w !! INSTANCES).
  - done.
Qed.

(** X22: a create whose check fails, by the test the code makes ([err] or
    nothing found, on the reply of the lookup), reports the referential error
    and writes nothing.  For each kind the trace shows the requests that were
    sent: after a failed check no later check and no [PutObject]; the one
    [PutObject] comes after all the checks of the kind, when all have passed
    (and the record's uuid is a string: otherwise the Moray client throws
    before it sends anything). *)
Theorem create_checks_before_write (o : obj) (name : string) (w : world) :
  o !! "name" = Some (VStr name) ->
  (forall owner, o !! "owner_uuid" = Some (VStr owner) ->
     let run := createApplication o w in
     let o' := record_after run.1 in
     (present (ufds_getUser owner w).1.1 = true ->
        outcome run.1 = Ok (Some (Error ("invalid user: " +:+ owner)), o') /\
        buckets run.2 = buckets w /\
        trace run.2 = trace w ++ [GetUser owner]) /\
     (present (ufds_getUser owner w).1.1 = false ->
        match as_string (o' !! "uuid") with
        | Some k => trace run.2 = trace w ++ [GetUser owner; PutObject APPLICATIONS k o']
        | None => trace run.2 = trace w ++ [GetUser owner] /\ buckets run.2 = buckets w
        end)) /\
  (forall app_uuid image_uuid,
     o !! "application_uuid" = Some (VStr app_uuid) ->
     o !! "image_uuid" = Some (VStr image_uuid) ->
     let run := createService o w in
     let o' := record_after run.1 in
     let find := FindObjects APPLICATIONS ("(uuid=" +:+ app_uuid +:+ ")") in
     let app_reply := (getApplication app_uuid w).1 in
     let image_reply := (imgapi_getImage image_uuid (getApplication app_uuid w).2).1 in
     (lookup_fails app_reply = true ->
        outcome run.1 =
          Ok (Some (Error ("application " +:+ app_uuid +:+ " doesn't exist")), o') /\
        buckets run.2 = buckets w /\
        trace run.2 = trace w ++ [find]) /\
     (lookup_fails app_reply = false -> lookup_fails image_reply = true ->
        outcome run.1 =
          Ok (Some (Error ("image " +:+ image_uuid +:+ " doesn't exist")), o') /\
        buckets run.2 = buckets w /\
        trace run.2 = trace w ++ [find; GetImage image_uuid]) /\
     (lookup_fails app_reply = false -> lookup_fails image_reply = false ->
        match as_string (o' !! "uuid") with
        | Some k =>
            trace run.2 = trace w ++ [find; GetImage image_uuid; PutObject SERVICES k o']
        | None =>
            trace run.2 = trace w ++ [find; GetImage image_uuid] /\
            buckets run.2 = buckets w
        end)) /\
  (forall svc_uuid, o !! "service_uuid" = Some (VStr svc_uuid) ->
     let run := createInstance o w in
     let o' := record_after run.1 in
     let find := FindObjects SERVICES ("(uuid=" +:+ svc_uuid +:+ ")") in
     (lookup_fails (getService svc_uuid w).1 = true ->
        outcome run.1 =
          Ok (Some (Error ("service " +:+ svc_uuid +:+ " doesn't exist")), o') /\
        buckets run.2 = buckets w /\
        trace run.2 = trace w ++ [find]) /\
     (lookup_fails (getService svc_uuid w).1 = false ->
        match as_string (o' !! "uuid") with
        | Some k => trace run.2 = trace w ++ [find; PutObject INSTANCES k o']
        | None => trace run.2 = trace w ++ [find] /\ buckets run.2 = buckets w
        end)).
Proof.
  intros Hn. split; [|split].
  - intros owner Ho. by apply (createApplication_checks o name).
  - intros app_uuid image_uuid Ha Hi. by apply (createService_checks o name).
  - intros svc_uuid Hs. by apply (createInstance_checks o name).
Qed.

Lemma create_checks_before_write_witness :
  (outcome (createService new_svc empty_world).1 =
     Ok (Some (Error "application a-1 doesn't exist"),
         record_after (createService new_svc empty_world).1) /\
   buckets (createService new_svc empty_world).2 = buckets empty_world /\
   trace (createService new_svc empty_world).2 =
     [FindObjects APPLICATIONS "(uuid=a-1)"]) /\
  (outcome (createService imageless_svc stocked_world).1 =
     Ok (Some (Error "image img-9 doesn't exist"),
         record_after (createService imageless_svc stocked_world).1) /\
   buckets (createService imageless_svc stocked_world).2 = buckets stocked_world /\
   trace (createService imageless_svc stocked_world).2 =
     [FindObjects APPLICATIONS "(uuid=a-1)"; GetImage "img-9"]).
Proof.
  split.
  - destruct (create_checks_before_write new_svc "svc2" empty_world eq_refl)
      as (_ & Hsvc & _).
    destruct (Hsvc "a-1" "img-1" eq_refl eq_refl) as (Hfail & _).
    exact (Hfail eq_refl).
  - destruct (create_checks_before_write imageless_svc "svc3" stocked_world eq_refl)
      as (_ & Hsvc & _).
    destruct (Hsvc "a-1" "img-9" eq_refl eq_refl) as (_ & Hfail & _).
    exact (Hfail eq_refl eq_refl).
Defined.

(** C2 at an input where the code departs from it: the service names the
    application [*], which no application is.  The lookup sends the filter
    that lists the bucket and finds the first application, the check passes
    and the service is written. *)
Theorem createService_star_application_is_written :
  buckets stocked_world !! APPLICATIONS = Some {[ "a-1" := sample_app ]} /\
  star_svc !! "application_uuid" = Some (VStr "*") /\
  outcome (createService star_svc stocked_world).1 = Ok (None, star_svc) /\
  buckets (createService star_svc stocked_world).2 !! SERVICES =
    Some (<["s-4" := star_svc]> {[ "s-1" := sample_svc ]}) /\
  trace (createService star_svc stocked_world).2 =
    [FindObjects APPLICATIONS "(uuid=*)"; GetImage "img-1";
     PutObject SERVICES "s-4" star_svc].
Proof. repeat split; reflexivity. Qed.

(** ** Storage errors during a referential check *)

(** C5, as the code has it: when the lookup of the referenced application
    fails in Moray, [createService] reports the referential error
    [application <uuid> doesn't exist], the one it reports for an application
    that is not there; the storage error is not passed on, and nothing is
    written. *)
Theorem createService_lookup_error_is_referential (service : obj)
    (name app_uuid image_uuid : string) (w : world) (e : error) :
  service !! "name" = Some (VStr name) ->
  service !! "application_uuid" = Some (VStr app_uuid) ->
  service !! "image_uuid" = Some (VStr image_uuid) ->
  (getApplication app_uuid w).1.1 = Some e ->
  outcome (createService service w).1 =
    Ok (Some (Error ("application " +:+ app_uuid +:+ " doesn't exist")),
        record_after (createService service w).1) /\
  buckets (createService service w).2 = buckets w /\
  trace (createService service w).2 =
    trace w ++ [FindObjects APPLICATIONS ("(uuid=" +:+ app_uuid +:+ ")")].
Proof.
  intros Hn Ha Hi He.
  destruct (createService_checks service name app_uuid image_uuid w Hn Ha Hi)
    as (Hfail & _).
  apply Hfail. unfold lookup_fails. by rewrite He.
Qed.

Lemma createService_lookup_error_is_referential_witness :
  outcome (createService sample_svc broken_world).1 =
    Ok (Some (Error "application a-1 doesn't exist"),
        record_after (createService sample_svc broken_world).1) /\
  buckets (createService sample_svc broken_world).2 = buckets broken_world /\
  trace (createService sample_svc broken_world).2 =
    [FindObjects APPLICATIONS "(uuid=a-1)"].
Proof.
  exact (createService_lookup_error_is_referential sample_svc "svc1" "a-1" "img-1"
           broken_world storage_down eq_refl eq_refl eq_refl eq_refl).
Defined.

(** C5 as stated fails: here the lookup of the application fails with a
    storage error, and the error [createService] reports is another one. *)
Lemma createService_storage_error_rewritten :
  (getApplication "a-1" broken_world).1 = (Some storage_down, None) /\
  outcome (createService sample_svc broken_world).1 =
    Ok (Some (Error "application a-1 doesn't exist"), sample_svc) /\
  Error "application a-1 doesn't exist" <> storage_down.
Proof. split; [|split]; [reflexivity..|discriminate]. Qed.

(** ** The identifier of a new record *)

(** C10: a create assigns the generated uuid to the caller's record before
    its waterfall starts.  With [o'] the record with the first identifier drawn
    in [w] as its uuid when it had none (and the record itself otherwise), [o']
    is what the caller's record is when the call is over, whatever the checks
    and the write did, and what the callback receives next to the error; for
    [createApplication] that is spelled out for the failed owner check. *)
Theorem create_sets_uuid_on_callers_record (o : obj) (name : string) (w : world) :
  o !! "name" = Some (VStr name) ->
  let o' := if truthy (o !! "uuid") then o
            else <["uuid" := VStr (v4 w (drawn w))]> o in
  (forall owner, o !! "owner_uuid" = Some (VStr owner) ->
     record_after (createApplication o w).1 = o' /\
     (forall err r, outcome (createApplication o w).1 = Ok (err, r) -> r = o') /\
     (present (ufds_getUser owner w).1.1 = true ->
        outcome (createApplication o w).1 =
          Ok (Some (Error ("invalid user: " +:+ owner)), o'))) /\
  (forall app_uuid image_uuid,
     o !! "application_uuid" = Some (VStr app_uuid) ->
     o !! "image_uuid" = Some (VStr image_uuid) ->
     record_after (createService o w).1 = o' /\
     (forall err r, outcome (createService o w).1 = Ok (err, r) -> r = o')) /\
  (forall svc_uuid, o !! "service_uuid" = Some (VStr svc_uuid) ->
     record_after (createInstance o w).1 = o' /\
     (forall err r, outcome (createInstance o w).1 = Ok (err, r) -> r = o')).
Proof.
  intros Hn o'.
  assert (Ho' : (ensure_uuid o w).1 = o').
  { rewrite ensure_uuid_run. subst o'. by destruct (truthy _). }
  split; [|split].
  - intros owner Ho.
    destruct (createApplication_checks o name owner w Hn Ho) as (Hfail & _).
    rewrite (createApplication_run o name owner w Hn Ho) in *.
    rewrite finish_record, finish_outcome, Ho' in *. split; [done|]. split.
    + intros err r. destruct (waterfall _ _).1; congruence.
    + intros H. by destruct (Hfail H) as (-> & _).
  - intros app_uuid image_uuid Ha Hi.
    rewrite (createService_run o name app_uuid image_uuid w Hn Ha Hi).
    rewrite finish_record, finish_outcome, Ho'. split; [done|].
    intros err r. destruct (waterfall _ _).1; congruence.
  - intros svc_uuid Hs.
    rewrite (createInstance_run o name svc_uuid w Hn Hs).
    rewrite finish_record, finish_outcome, Ho'. split; [done|].
    intros err r. destruct (waterfall _ _).1; congruence.
Qed.

Lemma create_sets_uuid_on_callers_record_witness :
  record_after (createApplication orphan_app empty_world).1 =
    <["uuid" := VStr (sample_v4 0)]> orphan_app /\
  outcome (createApplication orphan_app empty_world).1 =
    Ok (Some (Error "invalid user: nobody"),
        <["uuid" := VStr (sample_v4 0)]> orphan_app) /\
  record_after (createService new_svc broken_world).1 =
    <["uuid" := VStr (sample_v4 0)]> new_svc /\
  record_after (createInstance new_inst broken_world).1 =
    <["uuid" := VStr (sample_v4 0)]> new_inst.
Proof.
  destruct (create_sets_uuid_on_callers_record orphan_app "app3" empty_world eq_refl)
    as (Happ & _).
  destruct (Happ "nobody" eq_refl) as (Hrec & _ & Hfail).
  destruct (create_sets_uuid_on_callers_record new_svc "svc2" broken_world eq_refl)
    as (_ & Hsvc & _).
  destruct (create_sets_uuid_on_callers_record new_inst "inst2" broken_world eq_refl)
    as (_ & _ & Hinst).
  split; [exact Hrec|]. split; [apply Hfail; reflexivity|]. split.
  - exact (proj1 (Hsvc "a-1" "img-1" eq_refl eq_refl)).
  - exact (proj1 (Hinst "s-1" eq_refl)).
Defined.

(** ** Create, then get *)

(** X23: on a world whose services answer, with the applications bucket in
    place and its records keyed by their uuid, creating an application whose
    owner UFDS knows and whose identifier [u] (the caller's string when there
    is one, the generated one otherwise) has no filter metacharacter succeeds,
    and [getApplication] on [u] returns the stored record: the caller's
    record itself, or the caller's record with [uuid] set to [u].  That
    record differs from the caller's at no field but [uuid]. *)
Theorem create_then_get_application (app : obj) (name owner u : string)
    (w : world) (b : gmap string obj) :
  app !! "name" = Some (VStr name) ->
  app !! "owner_uuid" = Some (VStr owner) ->
  is_Some (users w !! owner) ->
  fault_free w ->
  buckets w !! APPLICATIONS = Some b ->
  keyed_by_uuid w ->
  (if truthy (app !! "uuid") then app !! "uuid" = Some (VStr u)
   else v4 w (drawn w) = u) ->
  plain u = true ->
  let app' := if truthy (app !! "uuid") then app else <["uuid" := VStr u]> app in
  outcome (createApplication app w).1 = Ok (None, app') /\
  buckets (createApplication app w).2 !! APPLICATIONS = Some (<[u := app']> b) /\
  (getApplication u (createApplication app w).2).1 = (None, Some app') /\
  (forall k, k <> "uuid" -> app' !! k = app !! k).
Proof.
  intros Hn Ho [user Huser] Hff Hb Hkey Hu Hplain app'.
  assert (Happ' : (ensure_uuid app w).1 = app').
  { rewrite ensure_uuid_run. subst app'.
    destruct (truthy (app !! "uuid")); [done|]. simpl. by rewrite Hu. }
  assert (Huuid : app' !! "uuid" = Some (VStr u)).
  { subst app'. destruct (truthy (app !! "uuid")); [done|]. apply lookup_insert_eq. }
  assert (Hrun : (createApplication app w).1 = Created app' (Ok (None, app')) /\
                 buckets (createApplication app w).2 = <[APPLICATIONS := <[u := app']> b]> (buckets w) /\
                 fault (createApplication app w).2 = fault w).
  { rewrite (createApplication_run app name owner w Hn Ho), Happ'.
    destruct (ensure_uuid_world app w) as [n ->].
    cbn [waterfall]. rewrite check_owner_run, ufds_getUser_drawn, ufds_getUser_run.
    rewrite Hff, Huser. cbn. rewrite put_task_run, Huuid. cbn.
    by rewrite Hff, Hb. }
  destruct Hrun as (Hc & Hbk & Hf). rewrite Hc. cbn.
  split; [done|]. split; [by rewrite Hbk, lookup_insert_eq|]. split.
  - unfold getApplication.
    rewrite (getObject_plain APPLICATIONS u _ (<[u := app']> b)); try done.
    + by rewrite lookup_insert_eq.
    + by rewrite Hf.
    + by rewrite Hbk, lookup_insert_eq.
    + intros k o. destruct (decide (u = k)) as [<-|Hne].
      * rewrite lookup_insert_eq. by intros [= <-].
      * rewrite lookup_insert_ne by done. apply (Hkey APPLICATIONS b k o Hb).
  - intros k Hk. subst app'. destruct (truthy _); [done|].
    by rewrite lookup_insert_ne.
Qed.

Lemma fault_free_empty_world : fault_free empty_world.
Proof. by intros n r. Qed.

Lemma keyed_by_uuid_empty_world : keyed_by_uuid empty_world.
Proof.
  intros bucket b k o Hb Hk. cbn in Hb.
  repeat (apply lookup_insert_Some in Hb as [[_ <-]|[_ Hb]]; [by rewrite lookup_empty in Hk|]).
  by rewrite lookup_empty in Hb.
Qed.

Lemma create_then_get_application_witness :
  (outcome (createApplication new_app empty_world).1 =
     Ok (None, <["uuid" := VStr (sample_v4 0)]> new_app) /\
   (getApplication (sample_v4 0) (createApplication new_app empty_world).2).1 =
     (None, Some (<["uuid" := VStr (sample_v4 0)]> new_app))) /\
  (outcome (createApplication sample_app empty_world).1 = Ok (None, sample_app) /\
   (getApplication "a-1" (createApplication sample_app empty_world).2).1 =
     (None, Some sample_app)).
Proof.
  split.
  - destruct (create_then_get_application new_app "app2" "admin" (sample_v4 0)
                empty_world ∅ eq_refl eq_refl (mk_is_Some _ _ eq_refl)
                fault_free_empty_world eq_refl keyed_by_uuid_empty_world
                eq_refl eq_refl) as (Hout & _ & Hget & _).
    exact (conj Hout Hget).
  - destruct (create_then_get_application sample_app "app1" "admin" "a-1"
                empty_world ∅ eq_refl eq_refl (mk_is_Some _ _ eq_refl)
                fault_free_empty_world eq_refl keyed_by_uuid_empty_world
                eq_refl eq_refl) as (Hout & _ & Hget & _).
    exact (conj Hout Hget).
Defined.

(** C6 at an input where the code departs from it: the caller's record
    brings [*] as its uuid, which [createApplication] does not look at.  The
    create succeeds and stores the record under [*]; the get on [*] then sends
    the filter that lists the bucket and returns the first record of the
    list, another application. *)
Theorem createApplication_star_then_get :
  star_app !! "uuid" = Some (VStr "*") /\
  outcome (createApplication star_app stocked_world).1 = Ok (None, star_app) /\
  buckets (createApplication star_app stocked_world).2 !! APPLICATIONS =
    Some (<["*" := star_app]> {[ "a-1" := sample_app ]}) /\
  (listApplications (createApplication star_app stocked_world).2).1 =
    (None, Some [sample_app; star_app]) /\
  (getApplication "*" (createApplication star_app stocked_world).2).1 =
    (None, Some sample_app) /\
  sample_app <> star_app.
Proof.
  repeat split; try reflexivity.
  intros H. apply (f_equal (fun o : obj => o !! "name")) in H. discriminate H.
Qed.

(** ** Get *)

(** The lookup of the identifier that is one star sends the request of
    [listObjects] and returns the first record of the list. *)
Lemma getObject_star bucket w :
  getObject bucket "*" w =
    (match (listObjects bucket w).1 with
     | (Some e, _) => (Some e, None)
     | (None, objs) => (None, head (default [] objs))
     end, (listObjects bucket w).2).
Proof.
  unfold getObject, listObjects, bind.
  change ("(uuid=" +:+ "*" +:+ ")") with "(uuid=*)".
  by destruct (findObjects bucket "(uuid=*)" w) as [[[e|] objs] w'].
Qed.

(** C7 at an input where the code departs from it: no application has the
    identifier that is one star, the query does not fail, and
    [getApplication] returns an application all the same, the first one of
    [listApplications]. *)
Theorem getApplication_star_finds_a_record :
  buckets stocked_world !! APPLICATIONS = Some {[ "a-1" := sample_app ]} /\
  (listApplications stocked_world).1 = (None, Some [sample_app]) /\
  (getApplication "*" stocked_world).1 = (None, Some sample_app).
Proof. split; [|split]; reflexivity. Qed.

(** ** Deployment *)

Lemma deployInstance_service_not_found (instance : obj) uuid w :
  instance !! "service_uuid" = Some (VStr uuid) ->
  (getService uuid w).1 = (None, None) ->
  (deployInstance instance w).1 =
    Deployed [] (Some (TypeError "Cannot read property 'application_uuid' of null")) /\
  trace (deployInstance instance w).2 =
    trace w ++ [FindObjects SERVICES ("(uuid=" +:+ uuid +:+ ")")].
Proof.
  intros Hs Hget. unfold deployInstance. rewrite Hs. cbn [as_string]. unfold bind.
  pose proof (getObject_world SERVICES uuid w) as Hw. unfold getService in *.
  destruct (getObject SERVICES uuid w) as [[err found] w']. simpl in *.
  by simplify_eq.
Qed.

(** C3 at an input where the code departs from it: the service of the
    instance does not exist, and [deployInstance] reports nothing to its
    callback: reading [application_uuid] of the [null] the lookup returned
    throws a TypeError.  Nothing is sent to VMAPI.  [createInstance] on the
    same world reports the error that names the service. *)
Theorem deployInstance_missing_service_throws :
  (getService "s-1" empty_world).1 = (None, None) /\
  (deployInstance sample_inst empty_world).1 =
    Deployed [] (Some (TypeError "Cannot read property 'application_uuid' of null")) /\
  trace (deployInstance sample_inst empty_world).2 =
    [FindObjects SERVICES "(uuid=s-1)"] /\
  outcome (createInstance sample_inst empty_world).1 =
    Ok (Some (Error "service s-1 doesn't exist"), sample_inst).
Proof.
  split; [reflexivity|].
  destruct (deployInstance_service_not_found sample_inst "s-1" empty_world)
    as [Hrun Htrace]; [reflexivity|reflexivity|].
  split; [exact Hrun|]. split; [exact Htrace|]. reflexivity.
Qed.

(** X11: a failed lookup of the service is reported to [cb], and then the same
    property read throws. *)
Lemma deployInstance_service_lookup_error (instance : obj) uuid w e :
  instance !! "service_uuid" = Some (VStr uuid) ->
  (getService uuid w).1.1 = Some e ->
  (deployInstance instance w).1 =
    Deployed [Some e]
      (Some (TypeError "Cannot read property 'application_uuid' of undefined")) /\
  trace (deployInstance instance w).2 =
    trace w ++ [FindObjects SERVICES ("(uuid=" +:+ uuid +:+ ")")].
Proof.
  intros Hs Hget. unfold deployInstance. rewrite Hs. cbn [as_string]. unfold bind.
  pose proof (getObject_world SERVICES uuid w) as Hw. unfold getService in *.
  destruct (getObject SERVICES uuid w) as [[err found] w']. simpl in *.
  by simplify_eq.
Qed.


Lemma deployZone_run params w :
  deployZone params w =
    (fault w (length (trace w)) (CreateVm (zone_fields params)),
     set_trace (trace w ++ [CreateVm (zone_fields params)]) w).
Proof.
  unfold deployZone, bind, vmapi_createVm, serve. simpl.
  by destruct (fault w _ _).
Qed.

Lemma vm_requests_app t1 t2 : vm_requests (t1 ++ t2) = vm_requests t1 ++ vm_requests t2.
Proof. apply omap_app. Qed.

(** X10: whatever happens, a deployment sends VMAPI one request at most. *)
Lemma deployInstance_at_most_one_request (instance : obj) w :
  vm_requests (trace (deployInstance instance w).2) = vm_requests (trace w) \/
  exists params,
    vm_requests (trace (deployInstance instance w).2) =
      vm_requests (trace w) ++ [zone_fields params].
Proof.
  unfold deployInstance.
  destruct (as_string (instance !! "service_uuid")) as [uuid|]; [|by left].
  unfold bind, getService, getApplication.
  pose proof (getObject_world SERVICES uuid w) as Hw1.
  destruct (getObject SERVICES uuid w) as [[err1 found1] w1]. cbn in Hw1. subst w1.
  assert (Hlook : forall b u, vm_requests (trace w ++ [FindObjects b u]) = vm_requests (trace w)).
  { intros b u. rewrite vm_requests_app. cbn. by rewrite app_nil_r. }
  destruct err1 as [e|]; [left; apply Hlook|].
  destruct found1 as [service|]; [|left; apply Hlook].
  destruct (as_string (service !! "application_uuid")) as [app_uuid|]; [|left; apply Hlook].
  pose proof (getObject_world APPLICATIONS app_uuid
                (set_trace (trace w ++ [FindObjects SERVICES ("(uuid=" +:+ uuid +:+ ")")]) w))
    as Hw2.
  destruct (getObject APPLICATIONS app_uuid _) as [[err2 found2] w2]. cbn in Hw2. subst w2.
  assert (Hlook2 : forall b u b' u',
            vm_requests ((trace w ++ [FindObjects b u]) ++ [FindObjects b' u']) =
            vm_requests (trace w)).
  { intros. rewrite !vm_requests_app. cbn. by rewrite !app_nil_r. }
  destruct err2 as [e|]; [left; apply Hlook2|].
  unfold deploy_step3.
  destruct (assembleParams found2 service instance) as [params|e]; [|left; apply Hlook2].
  right. exists params. unfold bind. rewrite deployZone_run. cbn.
  rewrite !vm_requests_app. cbn. by rewrite !app_nil_r.
Qed.

(** C9: when both lookups of a deployment return and the parameters are
    assembled, VMAPI is sent one creation request, after the two lookups,
    whose parameters are the assembled ones with [brand], [ram], [networks]
    and [server_uuid] set to the fixed values, whatever the assembled
    parameters said for these names, and with every other name as assembled;
    the callback is called once, with what VMAPI answered. *)
Theorem deployInstance_provisions_once (instance service : obj)
    (application : option obj) (svc_uuid app_uuid : string) (params : obj)
    (w : world) :
  instance !! "service_uuid" = Some (VStr svc_uuid) ->
  (getService svc_uuid w).1 = (None, Some service) ->
  service !! "application_uuid" = Some (VStr app_uuid) ->
  (getApplication app_uuid (getService svc_uuid w).2).1 = (None, application) ->
  assembleParams application service instance = Ok params ->
  let sent :=
    <["server_uuid" := VStr "44454c4c-4800-1034-804a-b2c04f354d31"]>
      (<["networks" := VArr [VStr "cda22a50-15bd-43cf-b379-be0cbac60cb4"]]>
        (<["ram" := VNum 256]>
          (<["brand" := VStr "joyent-minimal"]> params))) in
  let run := deployInstance instance w in
  trace run.2 =
    trace w ++ [FindObjects SERVICES ("(uuid=" +:+ svc_uuid +:+ ")");
                FindObjects APPLICATIONS ("(uuid=" +:+ app_uuid +:+ ")");
                CreateVm sent] /\
  vm_requests (trace run.2) = vm_requests (trace w) ++ [sent] /\
  run.1 = Deployed [fault w (S (S (length (trace w)))) (CreateVm sent)] None /\
  sent !! "brand" = Some (VStr "joyent-minimal") /\
  sent !! "ram" = Some (VNum 256) /\
  sent !! "networks" = Some (VArr [VStr "cda22a50-15bd-43cf-b379-be0cbac60cb4"]) /\
  sent !! "server_uuid" = Some (VStr "44454c4c-4800-1034-804a-b2c04f354d31") /\
  (forall k, k <> "brand" -> k <> "ram" -> k <> "networks" -> k <> "server_uuid" ->
     sent !! k = params !! k).
Proof.
  intros Hs Hsvc Ha Happ Hparams sent run.
  assert (Hrun : run = (Deployed [fault w (S (S (length (trace w)))) (CreateVm sent)] None,
                        set_trace (trace w ++
                          [FindObjects SERVICES ("(uuid=" +:+ svc_uuid +:+ ")");
                           FindObjects APPLICATIONS ("(uuid=" +:+ app_uuid +:+ ")");
                           CreateVm sent]) w)).
  { subst run. unfold deployInstance. rewrite Hs. cbn [as_string]. unfold bind.
    unfold getService, getApplication in *.
    pose proof (getObject_world SERVICES svc_uuid w) as Hw1.
    destruct (getObject SERVICES svc_uuid w) as [[err1 found1] w1].
    simpl in Hsvc, Hw1, Happ. simplify_eq. rewrite Ha. cbn [as_string].
    pose proof (getObject_world APPLICATIONS app_uuid
                  (set_trace (trace w ++ [FindObjects SERVICES ("(uuid=" +:+ svc_uuid +:+ ")")]) w)) as Hw2.
    destruct (getObject APPLICATIONS app_uuid _) as [[err2 found2] w2].
    simpl in Happ, Hw2. simplify_eq.
    unfold deploy_step3. rewrite Hparams. unfold bind. rewrite deployZone_run.
    cbn. rewrite !length_app, <- !app_assoc. cbn.
    by replace (length (trace w) + 1 + 1) with (S (S (length (trace w)))) by lia. }
  rewrite Hrun. cbn. split; [done|]. split.
  { rewrite vm_requests_app. done. }
  split; [done|]. subst sent.
  split; [by simplify_map_eq|]. split; [by simplify_map_eq|].
  split; [by simplify_map_eq|]. split; [by simplify_map_eq|].
  intros k ? ? ? ?. by simplify_map_eq.
Qed.

Lemma deployInstance_provisions_once_witness :
  vm_requests (trace (deployInstance sample_inst stocked_world).2) =
    [ <["server_uuid" := VStr "44454c4c-4800-1034-804a-b2c04f354d31"]>
        (<["networks" := VArr [VStr "cda22a50-15bd-43cf-b379-be0cbac60cb4"]]>
          (<["ram" := VNum 256]>
            (<["brand" := VStr "joyent-minimal"]> sample_params))) ] /\
  (deployInstance sample_inst stocked_world).1 = Deployed [None] None.
Proof.
  destruct (deployInstance_provisions_once sample_inst sample_svc (Some sample_app)
              "s-1" "a-1" sample_params stocked_world
              eq_refl eq_refl eq_refl eq_refl eq_refl) as (_ & Hvm & Hrun & _).
  exact (conj Hvm Hrun).
Defined.

(** ** Bucket initialization *)

Section schedule.

(** The configuration the buckets are created with. *)
Variable cfg : value.

Lemma createBucket_step_fault_free name p w :
  fault_free w ->
  createBucket_step name cfg p w =
    match p with
    | GetPending =>
        (match buckets w !! name with
         | Some _ => Finished None
         | None => CreatePending
         end, set_trace (trace w ++ [GetBucket name]) w)
    | CreatePending =>
        match buckets w !! name with
        | Some _ => (Finished (Some (Error "failed to create bucket")),
                     set_trace (trace w ++ [CreateBucket name cfg]) w)
        | None => (Finished None,
                   set_buckets (<[name := ∅]> (buckets w))
                     (set_trace (trace w ++ [CreateBucket name cfg]) w))
        end
    | Finished r => (Finished r, w)
    end.
Proof.
  intros Hff. destruct p; [| |done].
  - unfold createBucket_step, moray_getBucket, bind, serve. cbn. rewrite Hff.
    by destruct (buckets w !! name).
  - unfold createBucket_step, moray_createBucket, bind, serve. cbn. rewrite Hff.
    by destruct (buckets w !! name).
Qed.

Lemma createBucket_step_progress name p w :
  steps_left (createBucket_step name cfg p w).1 <= steps_left p - 1.
Proof.
  destruct p; cbn.
  - unfold bind. destruct (moray_getBucket name w) as [[e|] w']; cbn; [|lia].
    destruct (negb _); cbn; lia.
  - unfold bind. destruct (moray_createBucket name cfg w) as [[e|] w']; cbn; lia.
  - lia.
Qed.

Lemma run_schedule_cons i sched ops w :
  run_schedule cfg (i :: sched) ops w =
    match ops !! i with
    | None => run_schedule cfg sched ops w
    | Some (name, p) =>
        run_schedule cfg sched
          (<[i := (name, (createBucket_step name cfg p w).1)]> ops)
          (createBucket_step name cfg p w).2
    end.
Proof.
  cbn. destruct (ops !! i) as [[name p]|]; [|done].
  unfold bind. by destruct (createBucket_step name cfg p w).
Qed.

(** Every turn of the schedule brings the operation it names closer to its
    end. *)
Lemma run_schedule_progress sched ops w i name p :
  ops !! i = Some (name, p) ->
  exists p', (run_schedule cfg sched ops w).1 !! i = Some (name, p') /\
             steps_left p' <= steps_left p - count_occ Nat.eq_dec sched i.
Proof.
  revert ops w p. induction sched as [|j sched IH]; intros ops w p Hi.
  - exists p. split; [done|]. cbn. lia.
  - rewrite run_schedule_cons. destruct (ops !! j) as [[nj pj]|] eqn:Hj.
    + destruct (decide (j = i)) as [->|Hne].
      * assert (nj = name /\ pj = p) as [-> ->] by (split; congruence).
        destruct (IH (<[i := (name, (createBucket_step name cfg p w).1)]> ops)
                    (createBucket_step name cfg p w).2
                    (createBucket_step name cfg p w).1) as (p' & Hp' & Hle).
        { apply list_lookup_insert_eq. by eapply lookup_lt_Some. }
        exists p'. split; [done|]. cbn. destruct (Nat.eq_dec i i); [|done].
        pose proof (createBucket_step_progress name p w). lia.
      * destruct (IH (<[j := (nj, (createBucket_step nj cfg pj w).1)]> ops)
                    (createBucket_step nj cfg pj w).2 p) as (p' & Hp' & Hle).
        { by rewrite list_lookup_insert_ne. }
        exists p'. split; [done|]. cbn. by destruct (Nat.eq_dec j i).
    + destruct (IH ops w p Hi) as (p' & Hp' & Hle).
      exists p'. split; [done|]. cbn.
      destruct (Nat.eq_dec j i); [congruence|done].
Qed.

Lemma run_schedule_names sched ops w :
  (run_schedule cfg sched ops w).1.*1 = ops.*1.
Proof.
  revert ops w. induction sched as [|j sched IH]; intros ops w; [done|].
  rewrite run_schedule_cons. destruct (ops !! j) as [[nj pj]|] eqn:Hj; [|done].
  rewrite IH, list_fmap_insert. cbn. apply list_insert_id.
  by rewrite list_lookup_fmap, Hj.
Qed.

(** A property of the world and the operations that every step keeps holds
    when the schedule is over. *)
Lemma run_schedule_invariant (I : world -> list (string * phase) -> Prop) :
  (forall w ops i name p,
     I w ops -> ops !! i = Some (name, p) ->
     I (createBucket_step name cfg p w).2
       (<[i := (name, (createBucket_step name cfg p w).1)]> ops)) ->
  forall sched ops w,
    I w ops -> I (run_schedule cfg sched ops w).2 (run_schedule cfg sched ops w).1.
Proof.
  intros Hstep sched. induction sched as [|j sched IH]; intros ops w HI; [done|].
  rewrite run_schedule_cons. destruct (ops !! j) as [[nj pj]|] eqn:Hj.
  - apply IH. by apply Hstep.
  - by apply IH.
Qed.

Lemma names_insert (ops : list (string * phase)) i name p p' :
  ops !! i = Some (name, p) -> (<[i := (name, p')]> ops).*1 = ops.*1.
Proof.
  intros Hi. rewrite list_fmap_insert. cbn. apply list_insert_id.
  by rewrite list_lookup_fmap, Hi.
Qed.

Lemma ops_ok_step w ops i name p :
  ops_ok w ops -> ops !! i = Some (name, p) ->
  ops_ok (createBucket_step name cfg p w).2
         (<[i := (name, (createBucket_step name cfg p w).1)]> ops).
Proof.
  intros (Hff & Hnd & Hok) Hi.
  rewrite (createBucket_step_fault_free name p w Hff).
  assert (Hp : op_ok w (name, p)).
  { rewrite Forall_lookup in Hok. by apply (Hok i). }
  assert (Hother : forall j name' q, j <> i -> ops !! j = Some (name', q) -> name' <> name).
  { intros j name' q Hne Hj ->. apply Hne.
    eapply (NoDup_lookup ops.*1); [done| |]; rewrite list_lookup_fmap.
    - by rewrite Hj. - by rewrite Hi. }
  split; [|split].
  - destruct p; [| |done]; cbn; by destruct (buckets w !! name).
  - by erewrite names_insert.
  - apply Forall_lookup. intros j [name' q] Hj.
    destruct (decide (j = i)) as [->|Hne].
    + rewrite list_lookup_insert_eq in Hj by (by eapply lookup_lt_Some).
      injection Hj as <- <-. unfold op_ok in *. cbn in *.
      destruct p; cbn.
      * by destruct (buckets w !! name) eqn:Hb; cbn; rewrite ?Hb.
      * rewrite Hp. cbn. rewrite lookup_insert_eq. by split.
      * done.
    + rewrite list_lookup_insert_ne in Hj by done.
      assert (Hq : op_ok w (name', q)).
      { rewrite Forall_lookup in Hok. by apply (Hok j). }
      pose proof (Hother j name' q Hne Hj) as Hname.
      unfold op_ok in *. cbn in *.
      assert (Hsame : buckets
                (match p with
                 | GetPending =>
                     (match buckets w !! name with
                      | Some _ => Finished None
                      | None => CreatePending
                      end, set_trace (trace w ++ [GetBucket name]) w)
                 | CreatePending =>
                     match buckets w !! name with
                     | Some _ => (Finished (Some (Error "failed to create bucket")),
                                  set_trace (trace w ++ [CreateBucket name cfg]) w)
                     | None => (Finished None,
                                set_buckets (<[name := ∅]> (buckets w))
                                  (set_trace (trace w ++ [CreateBucket name cfg]) w))
                     end
                 | Finished r => (Finished r, w)
                 end).2 !! name' = buckets w !! name').
      { destruct p; cbn; [done| |done].
        destruct (buckets w !! name); cbn; [done|]. by rewrite lookup_insert_ne. }
      by rewrite Hsame.
Qed.


End schedule.

Lemma parallel_callback_success ops :
  Forall (fun op : string * phase => op.2 = Finished None) ops ->
  parallel_callback ops = Some None.
Proof.
  intros Hall. unfold parallel_callback.
  assert (forallb finished ops = true /\ omap failure ops = []) as [-> ->]; [|done].
  induction Hall as [|[name p] ops Hp _ [IH1 IH2]]; [done|].
  cbn in Hp. subst p. cbn. by rewrite IH1, IH2.
Qed.


Lemma steps_left_0 p : steps_left p <= 0 -> exists r, p = Finished r.
Proof. destruct p; cbn; [lia..|by eexists]. Qed.

(** When the schedule is fair the three operations are over. *)
Lemma initBuckets_over sched w :
  fair 3 sched ->
  exists r1 r2 r3,
    (initBuckets sched w).1.1 =
      [(APPLICATIONS, Finished r1); (SERVICES, Finished r2); (INSTANCES, Finished r3)].
Proof.
  intros Hfair. unfold initBuckets, bind.
  set (ops0 := [(APPLICATIONS, GetPending); (SERVICES, GetPending); (INSTANCES, GetPending)]).
  pose proof (run_schedule_names bucket_cfg sched ops0 w) as Hnames.
  pose proof (fun i name Hi => run_schedule_progress bucket_cfg sched ops0 w i name
                                 GetPending Hi) as Hprog.
  destruct (run_schedule bucket_cfg sched ops0 w) as [ops w']. cbn in *.
  destruct (Hprog 0 APPLICATIONS eq_refl) as (p1 & H1 & Hle1).
  destruct (Hprog 1 SERVICES eq_refl) as (p2 & H2 & Hle2).
  destruct (Hprog 2 INSTANCES eq_refl) as (p3 & H3 & Hle3).
  pose proof (Hfair 0) as Hf0. pose proof (Hfair 1) as Hf1.
  pose proof (Hfair 2) as Hf2.
  destruct (steps_left_0 p1) as [r1 ->]; [lia|].
  destruct (steps_left_0 p2) as [r2 ->]; [lia|].
  destruct (steps_left_0 p3) as [r3 ->]; [lia|].
  exists r1, r2, r3.
  destruct ops as [|op1 [|op2 [|op3 [|op4 ops]]]]; try done.
  cbn in H1, H2, H3. congruence.
Qed.

Lemma initBuckets_run sched w :
  initBuckets sched w =
    (let ops := (run_schedule bucket_cfg sched
                   [(APPLICATIONS, GetPending); (SERVICES, GetPending);
                    (INSTANCES, GetPending)] w).1 in
     (ops, parallel_callback ops),
     (run_schedule bucket_cfg sched
        [(APPLICATIONS, GetPending); (SERVICES, GetPending);
         (INSTANCES, GetPending)] w).2).
Proof. unfold initBuckets, bind. by destruct (run_schedule _ _ _ _). Qed.

(** On a world without faults a fair run of [initBuckets] succeeds and leaves
    the three buckets in place. *)
Lemma initBuckets_fault_free sched w :
  fault_free w -> fair 3 sched ->
  (initBuckets sched w).1.2 = Some None /\
  fault_free (initBuckets sched w).2 /\
  is_Some (buckets (initBuckets sched w).2 !! APPLICATIONS) /\
  is_Some (buckets (initBuckets sched w).2 !! SERVICES) /\
  is_Some (buckets (initBuckets sched w).2 !! INSTANCES).
Proof.
  intros Hff Hfair.
  destruct (initBuckets_over sched w Hfair) as (r1 & r2 & r3 & Hops).
  rewrite initBuckets_run in *. cbn in *.
  set (ops0 := [(APPLICATIONS, GetPending); (SERVICES, GetPending); (INSTANCES, GetPending)]) in *.
  assert (H0 : ops_ok w ops0).
  { split; [done|]. split.
    - apply (bool_decide_unpack _). reflexivity.
    - by repeat constructor. }
  pose proof (run_schedule_invariant bucket_cfg ops_ok
                (fun w ops i name p => ops_ok_step bucket_cfg w ops i name p)
                sched ops0 w H0) as (Hff' & _ & Hall).
  rewrite Hops in *.
  apply Forall_cons in Hall as [[-> Hb1] Hall].
  apply Forall_cons in Hall as [[-> Hb2] Hall].
  apply Forall_cons in Hall as [[-> Hb3] _].
  done.
Qed.






Lemma fault_free_fresh_world : fault_free fresh_world.
Proof. by intros n r. Qed.

Lemma fair_in_order : fair 3 [0; 1; 2; 0; 1; 2].
Proof. intros [|[|[|i]]] Hi; cbn; lia. Qed.

Lemma fair_interleaved : fair 3 [2; 0; 0; 1; 2; 1].
Proof. intros [|[|[|i]]] Hi; cbn; lia. Qed.


(** ** Records stay keyed by their uuid *)

Lemma as_string_Some v s : as_string v = Some s -> v = Some (VStr s).
Proof. destruct v as [[]|]; cbn; congruence. Qed.

Lemma keyed_by_uuid_buckets w w' :
  buckets w' = buckets w -> keyed_by_uuid w -> keyed_by_uuid w'.
Proof. unfold keyed_by_uuid. by intros ->. Qed.

Lemma put_task_keyed bucket (o : obj) w :
  keyed_by_uuid w -> keyed_by_uuid (put_task bucket o w).2.
Proof.
  intros Hk. rewrite put_task_run.
  destruct (as_string (o !! "uuid")) as [k|] eqn:Hu; [|done].
  apply as_string_Some in Hu. cbn.
  destruct (fault w _ _); [done|].
  destruct (buckets w !! bucket) as [b|] eqn:Hb; [|done].
  intros bucket' b' k' o'. cbn.
  destruct (decide (bucket = bucket')) as [<-|Hne].
  - rewrite lookup_insert_eq. intros [= <-].
    destruct (decide (k = k')) as [<-|Hne'].
    + rewrite lookup_insert_eq. by intros [= <-].
    + rewrite lookup_insert_ne by done. by apply (Hk bucket b).
  - rewrite lookup_insert_ne by done. apply Hk.
Qed.

Lemma waterfall_keyed (tasks : list task) w :
  Forall (fun t : task => forall w, keyed_by_uuid w -> keyed_by_uuid (t w).2) tasks ->
  keyed_by_uuid w -> keyed_by_uuid (waterfall tasks w).2.
Proof.
  intros Hall. revert w. induction Hall as [|t tasks Ht _ IH]; intros w Hk; [done|].
  cbn. specialize (Ht w Hk). destruct (t w) as [[[e|]|e] w']; cbn in *; auto.
Qed.

Lemma check_tasks_keyed :
  (forall owner w, keyed_by_uuid w -> keyed_by_uuid (check_owner owner w).2) /\
  (forall uuid w, keyed_by_uuid w -> keyed_by_uuid (check_application uuid w).2) /\
  (forall uuid w, keyed_by_uuid w -> keyed_by_uuid (check_image uuid w).2) /\
  (forall uuid w, keyed_by_uuid w -> keyed_by_uuid (check_service uuid w).2).
Proof.
  repeat split; intros u w Hk.
  - by rewrite check_owner_run.
  - by rewrite check_application_run.
  - by rewrite check_image_run.
  - by rewrite check_service_run.
Qed.

Lemma ensure_uuid_keyed (o : obj) w :
  keyed_by_uuid w -> keyed_by_uuid (ensure_uuid o w).2.
Proof. destruct (ensure_uuid_world o w) as [n ->]. done. Qed.

(** The three creates keep every record under its own uuid. *)
Lemma create_keyed (o : obj) w :
  keyed_by_uuid w ->
  keyed_by_uuid (createApplication o w).2 /\
  keyed_by_uuid (createService o w).2 /\
  keyed_by_uuid (createInstance o w).2.
Proof.
  intros Hk. destruct check_tasks_keyed as (Howner & Happ & Himg & Hsvc).
  pose proof (ensure_uuid_keyed o w Hk) as Hk'.
  split; [|split].
  - unfold createApplication.
    destruct (as_string (o !! "name")); [|done].
    destruct (as_string (o !! "owner_uuid")); [|done].
    unfold bind. destruct (ensure_uuid o w) as [o' w']. rewrite finish_world.
    apply waterfall_keyed; [|done].
    repeat constructor; auto using put_task_keyed.
  - unfold createService.
    destruct (as_string (o !! "name")); [|done].
    destruct (as_string (o !! "application_uuid")); [|done].
    destruct (as_string (o !! "image_uuid")); [|done].
    unfold bind. destruct (ensure_uuid o w) as [o' w']. rewrite finish_world.
    apply waterfall_keyed; [|done].
    repeat constructor; auto using put_task_keyed.
  - unfold createInstance.
    destruct (as_string (o !! "name")); [|done].
    destruct (as_string (o !! "service_uuid")); [|done].
    unfold bind. destruct (ensure_uuid o w) as [o' w']. rewrite finish_world.
    apply waterfall_keyed; [|done].
    repeat constructor; auto using put_task_keyed.
Qed.

(** So does bucket initialization: a new bucket is empty. *)
Lemma createBucket_step_keyed name cfg p w :
  keyed_by_uuid w -> keyed_by_uuid (createBucket_step name cfg p w).2.
Proof.
  intros Hk. destruct p; [| |done].
  - unfold createBucket_step, moray_getBucket, bind, serve. cbn.
    destruct (fault w _ _) as [e|]; cbn.
    + by destruct (negb _).
    + by destruct (buckets w !! name).
  - unfold createBucket_step, moray_createBucket, bind, serve. cbn.
    destruct (fault w _ _) as [e|]; cbn; [done|].
    destruct (buckets w !! name) eqn:Hb; cbn; [done|].
    intros bucket' b' k' o'. cbn.
    destruct (decide (name = bucket')) as [<-|Hne].
    + rewrite lookup_insert_eq. intros [= <-]. by rewrite lookup_empty.
    + rewrite lookup_insert_ne by done. apply Hk.
Qed.

Lemma initBuckets_keyed sched w :
  keyed_by_uuid w -> keyed_by_uuid (initBuckets sched w).2.
Proof.
  intros Hk. rewrite initBuckets_run. cbn.
  apply (run_schedule_invariant bucket_cfg (fun w _ => keyed_by_uuid w)); [|done].
  intros w' ops i name p Hk' _. by apply createBucket_step_keyed.
Qed.

(** A plain identifier under which the bucket holds nothing fails the
    reference check, whatever Moray does. *)
Lemma lookup_fails_absent bucket uuid w :
  plain uuid = true ->
  keyed_by_uuid w ->
  (forall b, buckets w !! bucket = Some b -> b !! uuid = None) ->
  lookup_fails (getObject bucket uuid w).1 = true.
Proof.
  intros Hu Hk Habs. unfold lookup_fails, getObject, bind.
  rewrite findObjects_run.
  destruct (fault w _ _); [done|].
  destruct (buckets w !! bucket) as [b|] eqn:Hb; [|done].
  rewrite (parse_filter_plain _ Hu). cbn.
  rewrite (filter_plain b uuid Hu (fun k o => Hk bucket b k o Hb)).
  by rewrite (Habs b eq_refl).
Qed.
(** An image IMGAPI does not have fails the reference check. *)
Lemma lookup_fails_no_image image w :
  images w !! image = None -> lookup_fails (imgapi_getImage image w).1 = true.
Proof.
  intros Hi. rewrite imgapi_getImage_run, Hi. unfold lookup_fails.
  by destruct (fault w _ _).
Qed.

(** * Further properties *)

(** ** The shape of a create *)

Lemma same_clients_refl w : same_clients w w.
Proof. by repeat split. Qed.

Lemma same_clients_trans w1 w2 w3 :
  same_clients w1 w2 -> same_clients w2 w3 -> same_clients w1 w3.
Proof.
  intros (H1 & H2 & H3 & H4) (H1' & H2' & H3' & H4').
  repeat split; congruence.
Qed.

Lemma same_clients_fault_free w w' :
  same_clients w w' -> fault_free w -> fault_free w'.
Proof. intros (_ & _ & Hf & _) Hff n r. by rewrite Hf. Qed.

Lemma pure_checks :
  (forall owner, pure_check (check_owner owner)) /\
  (forall uuid, pure_check (check_application uuid)) /\
  (forall uuid, pure_check (check_image uuid)) /\
  (forall uuid, pure_check (check_service uuid)).
Proof.
  repeat split; intros u w.
  - rewrite check_owner_run. by eexists _, _.
  - rewrite check_application_run. by eexists _, _.
  - rewrite check_image_run. by eexists _, _.
  - rewrite check_service_run. by eexists _, _.
Qed.

(** Checks first, then a last step: either a check reports an error, or the
    last step runs on the world with the requests of the checks served. *)
Lemma waterfall_checks (checks : list task) (last : task) w :
  Forall pure_check checks ->
  exists rs,
    let w1 := set_trace (trace w ++ rs) w in
    (exists e, waterfall (checks ++ [last]) w = (Ok (Some e), w1)) \/
    waterfall (checks ++ [last]) w = waterfall [last] w1.
Proof.
  intros Hall. revert w. induction Hall as [|t checks Ht _ IH]; intros w.
  - exists []. right. cbn [app]. rewrite app_nil_r. by destruct w.
  - destruct (Ht w) as (e & r & Hrun). cbn [app waterfall]. rewrite Hrun.
    destruct e as [e|].
    + exists [r]. left. by exists e.
    + destruct (IH (set_trace (trace w ++ [r]) w)) as (rs & Hrs).
      exists (r :: rs). cbn in Hrs. cbn.
      replace (trace w ++ r :: rs) with ((trace w ++ [r]) ++ rs)
        by (by rewrite <- app_assoc).
      exact Hrs.
Qed.

Lemma waterfall_last (t : task) w : waterfall [t] w = t w.
Proof. cbn. by destruct (t w) as [[[e|]|e] w']. Qed.

Lemma create_shape_of (bucket : string) (o : obj) w (checks : list task) :
  Forall pure_check checks ->
  create_shape bucket o w
    (finish (ensure_uuid o w).1
       (waterfall (checks ++ [put_task bucket (ensure_uuid o w).1]) (ensure_uuid o w).2)).
Proof.
  intros Hall. right.
  destruct (ensure_uuid_world o w) as [n Hn]. rewrite Hn.
  destruct (waterfall_checks checks (put_task bucket (ensure_uuid o w).1)
              (set_drawn n w) Hall) as (rs & [[e He]|Hlast]).
  - exists n, rs. left. exists e. by rewrite He.
  - exists n, rs. right. by rewrite Hlast, waterfall_last.
Qed.

Lemma createApplication_shape (o : obj) w :
  create_shape APPLICATIONS o w (createApplication o w).
Proof.
  unfold createApplication.
  destruct (as_string (o !! "name")); [|left; by eexists].
  destruct (as_string (o !! "owner_uuid")) as [owner|]; [|left; by eexists].
  unfold bind. destruct pure_checks as (Ho & _).
  pose proof (create_shape_of APPLICATIONS o w [check_owner owner]) as H.
  destruct (ensure_uuid o w) as [o' w']. apply H. by repeat constructor.
Qed.

Lemma createService_shape (o : obj) w :
  create_shape SERVICES o w (createService o w).
Proof.
  unfold createService.
  destruct (as_string (o !! "name")); [|left; by eexists].
  destruct (as_string (o !! "application_uuid")) as [app_uuid|]; [|left; by eexists].
  destruct (as_string (o !! "image_uuid")) as [image_uuid|]; [|left; by eexists].
  unfold bind. destruct pure_checks as (_ & Ha & Hi & _).
  pose proof (create_shape_of SERVICES o w [check_application app_uuid; check_image image_uuid]) as H.
  destruct (ensure_uuid o w) as [o' w']. apply H. by repeat constructor.
Qed.

Lemma createInstance_shape (o : obj) w :
  create_shape INSTANCES o w (createInstance o w).
Proof.
  unfold createInstance.
  destruct (as_string (o !! "name")); [|left; by eexists].
  destruct (as_string (o !! "service_uuid")) as [svc_uuid|]; [|left; by eexists].
  unfold bind. destruct pure_checks as (_ & _ & _ & Hs).
  pose proof (create_shape_of INSTANCES o w [check_service svc_uuid]) as H.
  destruct (ensure_uuid o w) as [o' w']. apply H. by repeat constructor.
Qed.

(** What follows from the shape: the other clients are untouched, and the
    store either gained the record under its uuid, in the bucket of its kind,
    on success, or is as it was. *)
Lemma create_shape_effect bucket (o : obj) w run :
  create_shape bucket o w run ->
  same_clients w run.2 /\
  (((exists r, outcome run.1 = Ok (None, r)) /\
    exists b u,
      buckets w !! bucket = Some b /\
      record_after run.1 !! "uuid" = Some (VStr u) /\
      outcome run.1 = Ok (None, record_after run.1) /\
      buckets run.2 = <[bucket := <[u := record_after run.1]> b]> (buckets w)) \/
   ((forall r, outcome run.1 <> Ok (None, r)) /\ buckets run.2 = buckets w)).
Proof.
  intros [[e ->]|(n & rs & [[e ->]| ->])].
  - split; [apply same_clients_refl|]. right. by split.
  - split; [by repeat split|]. right. by split.
  - rewrite put_task_run.
    destruct (as_string ((ensure_uuid o w).1 !! "uuid")) as [u|] eqn:Hu.
    + apply as_string_Some in Hu. cbn.
      destruct (fault w _ _) as [e|]; cbn.
      { split; [by repeat split|]. right. by split. }
      destruct (buckets w !! bucket) as [b|] eqn:Hb; cbn.
      * split; [by repeat split|]. left. split; [by eexists|].
        by exists b, u.
      * split; [by repeat split|]. right. by split.
    + cbn. split; [by repeat split|]. right. by split.
Qed.

(** ** All or nothing *)

(** X1: a create either succeeds, and then the store has gained exactly the
    record its callback received, under the record's uuid in the bucket of
    its kind; or it does not (a failed check, a failed write, an exception),
    and then the store is as it was. *)
Theorem create_all_or_nothing (o : obj) (w : world) :
  let outcomes (bucket : string) (run : created * world) :=
    (outcome run.1 = Ok (None, record_after run.1) /\
     exists b u,
       buckets w !! bucket = Some b /\
       record_after run.1 !! "uuid" = Some (VStr u) /\
       buckets run.2 = <[bucket := <[u := record_after run.1]> b]> (buckets w)) \/
    ((forall r, outcome run.1 <> Ok (None, r)) /\ buckets run.2 = buckets w) in
  outcomes APPLICATIONS (createApplication o w) /\
  outcomes SERVICES (createService o w) /\
  outcomes INSTANCES (createInstance o w).
Proof.
  assert (Hshape : forall bucket run, create_shape bucket o w run ->
            (outcome run.1 = Ok (None, record_after run.1) /\
             exists b u,
               buckets w !! bucket = Some b /\
               record_after run.1 !! "uuid" = Some (VStr u) /\
               buckets run.2 = <[bucket := <[u := record_after run.1]> b]> (buckets w)) \/
            ((forall r, outcome run.1 <> Ok (None, r)) /\ buckets run.2 = buckets w)).
  { intros bucket run Hrun.
    destruct (create_shape_effect bucket o w run Hrun)
      as (_ & [(_ & b & u & Hb & Hu & Hout & Hbk)|Hfail]); [left|by right].
    split; [done|]. by exists b, u. }
  cbv zeta. split; [|split]; apply Hshape.
  - apply createApplication_shape.
  - apply createService_shape.
  - apply createInstance_shape.
Qed.

(** X2: a create touches no record but the one it writes: every record of
    another bucket, and every record of its own bucket under another key than
    the new record's uuid, is after the call what it was before it. *)
Theorem create_leaves_other_records (o : obj) (w : world) (bucket k : string) :
  let untouched (own : string) (run : created * world) :=
    (bucket <> own \/ record_after run.1 !! "uuid" <> Some (VStr k)) ->
    buckets run.2 !! bucket ≫= (fun b => b !! k) = buckets w !! bucket ≫= (fun b => b !! k) in
  untouched APPLICATIONS (createApplication o w) /\
  untouched SERVICES (createService o w) /\
  untouched INSTANCES (createInstance o w).
Proof.
  assert (Hshape : forall own run, create_shape own o w run ->
            (bucket <> own \/ record_after run.1 !! "uuid" <> Some (VStr k)) ->
            buckets run.2 !! bucket ≫= (fun b => b !! k) =
            buckets w !! bucket ≫= (fun b => b !! k)).
  { intros own run Hrun Hother.
    destruct (create_shape_effect own o w run Hrun)
      as (_ & [(_ & b & u & Hb & Hu & _ & ->)|[_ ->]]); [|done].
    destruct (decide (bucket = own)) as [->|Hne].
    - rewrite lookup_insert_eq, Hb. cbn.
      destruct Hother as [?|Hk]; [done|].
      rewrite lookup_insert_ne; [done|]. intros ->. by apply Hk.
    - by rewrite lookup_insert_ne. }
  cbv zeta. split; [|split]; apply Hshape.
  - apply createApplication_shape.
  - apply createService_shape.
  - apply createInstance_shape.
Qed.

Lemma create_leaves_other_records_witness :
  buckets (createService new_svc stocked_world).2 !! APPLICATIONS ≫= (fun b => b !! "a-1") =
    Some sample_app /\
  buckets (createService new_svc stocked_world).2 !! SERVICES ≫= (fun b => b !! "s-1") =
    Some sample_svc.
Proof.
  destruct (create_leaves_other_records new_svc stocked_world APPLICATIONS "a-1")
    as (_ & Ha & _).
  destruct (create_leaves_other_records new_svc stocked_world SERVICES "s-1")
    as (_ & Hs & _).
  split.
  - apply Ha. left. intros H. discriminate H.
  - apply Hs. right. intros H. vm_compute in H. discriminate H.
Defined.

(** ** Failed writes *)

(** X3: when the checks of a create pass and Moray fails the write, the callback
    receives Moray's error as it is, next to the record, and nothing is
    stored.  [o'] is the record with its uuid, [k]; the write is the request
    after the one or two of the checks. *)
Theorem create_reports_write_error (o : obj) (name k : string) (w : world) (e : error) :
  o !! "name" = Some (VStr name) ->
  let o' := if truthy (o !! "uuid") then o
            else <["uuid" := VStr (v4 w (drawn w))]> o in
  o' !! "uuid" = Some (VStr k) ->
  (forall owner,
     o !! "owner_uuid" = Some (VStr owner) ->
     present (ufds_getUser owner w).1.1 = false ->
     fault w (S (length (trace w))) (PutObject APPLICATIONS k o') = Some e ->
     outcome (createApplication o w).1 = Ok (Some e, o') /\
     buckets (createApplication o w).2 = buckets w) /\
  (forall app_uuid image_uuid,
     o !! "application_uuid" = Some (VStr app_uuid) ->
     o !! "image_uuid" = Some (VStr image_uuid) ->
     lookup_fails (getApplication app_uuid w).1 = false ->
     lookup_fails (imgapi_getImage image_uuid (getApplication app_uuid w).2).1 = false ->
     fault w (S (S (length (trace w)))) (PutObject SERVICES k o') = Some e ->
     outcome (createService o w).1 = Ok (Some e, o') /\
     buckets (createService o w).2 = buckets w) /\
  (forall svc_uuid,
     o !! "service_uuid" = Some (VStr svc_uuid) ->
     lookup_fails (getService svc_uuid w).1 = false ->
     fault w (S (length (trace w))) (PutObject INSTANCES k o') = Some e ->
     outcome (createInstance o w).1 = Ok (Some e, o') /\
     buckets (createInstance o w).2 = buckets w).
Proof.
  intros Hn o' Hk.
  assert (Ho' : (ensure_uuid o w).1 = o').
  { rewrite ensure_uuid_run. subst o'. by destruct (truthy _). }
  assert (H1 : length (trace w) + 1 = S (length (trace w))) by lia.
  assert (H2 : length (trace w) + 1 + 1 = S (S (length (trace w)))) by lia.
  split; [|split].
  - intros owner Ho Hcheck He.
    rewrite (createApplication_run o name owner w Hn Ho), Ho'.
    destruct (ensure_uuid_world o w) as [n ->].
    rewrite finish_outcome, finish_world. cbn [waterfall].
    rewrite check_owner_run, ufds_getUser_drawn, Hcheck, put_task_run, Hk.
    cbn. rewrite !length_app. cbn. by rewrite H1, He.
  - intros app_uuid image_uuid Ha Hi Hcheck1 Hcheck2 He.
    rewrite (createService_run o name app_uuid image_uuid w Hn Ha Hi), Ho'.
    destruct (ensure_uuid_world o w) as [n ->].
    rewrite finish_outcome, finish_world. cbn [waterfall].
    unfold getApplication in *. rewrite getObject_world in Hcheck2.
    rewrite check_application_run. unfold getApplication.
    rewrite getObject_drawn, Hcheck1, check_image_run.
    rewrite imgapi_getImage_run in *. cbn in Hcheck2 |- *. rewrite Hcheck2.
    rewrite put_task_run, Hk. cbn. rewrite !length_app. cbn. by rewrite H2, He.
  - intros svc_uuid Hs Hcheck He.
    rewrite (createInstance_run o name svc_uuid w Hn Hs), Ho'.
    destruct (ensure_uuid_world o w) as [n ->].
    rewrite finish_outcome, finish_world. cbn [waterfall].
    rewrite check_service_run. unfold getService in *.
    rewrite getObject_drawn, Hcheck, put_task_run, Hk.
    cbn. rewrite !length_app. cbn. by rewrite H1, He.
Qed.

Lemma create_reports_write_error_witness :
  outcome (createService new_svc read_only_world).1 =
    Ok (Some storage_down, <["uuid" := VStr (sample_v4 0)]> new_svc) /\
  buckets (createService new_svc read_only_world).2 = buckets read_only_world.
Proof.
  destruct (create_reports_write_error new_svc "svc2" (sample_v4 0) read_only_world
              storage_down eq_refl eq_refl) as (_ & Hsvc & _).
  exact (Hsvc "a-1" "img-1" eq_refl eq_refl eq_refl eq_refl eq_refl).
Defined.

(** ** List and get *)

Lemma filter_star (b : gmap string obj) :
  (forall k o, b !! k = Some o -> o !! "uuid" = Some (VStr k)) ->
  List.filter (matches "*") (map_to_list b).*2 = (map_to_list b).*2.
Proof.
  intros Hb. apply forallb_filter_id. apply forallb_forall.
  intros o Ho. apply list_elem_of_In, list_elem_of_fmap in Ho as ([k o'] & -> & Hin).
  apply elem_of_map_to_list in Hin. cbn. unfold matches.
  rewrite (Hb k o' Hin). apply glob_star.
Qed.

Lemma listObjects_bucket bucket w b :
  fault w (length (trace w)) (FindObjects bucket "(uuid=*)") = None ->
  buckets w !! bucket = Some b ->
  (forall k o, b !! k = Some o -> o !! "uuid" = Some (VStr k)) ->
  exists objs,
    (listObjects bucket w).1 = (None, Some objs) /\ NoDup objs /\
    length objs = size b /\
    forall o, o ∈ objs <-> exists k, b !! k = Some o.
Proof.
  intros Hf Hb Hkb. exists (map_to_list b).*2.
  split; [|split; [|split]].
  - unfold listObjects. rewrite findObjects_run, Hf, Hb. cbn.
    by rewrite (filter_star b Hkb).
  - apply NoDup_fmap_2_strong; [|apply NoDup_map_to_list].
    intros [k1 o1] [k2 o2] H1 H2 Heq. cbn in Heq. subst o2.
    apply elem_of_map_to_list in H1, H2.
    pose proof (Hkb k1 o1 H1). pose proof (Hkb k2 o1 H2). congruence.
  - by rewrite length_fmap, length_map_to_list.
  - intros o. rewrite list_elem_of_fmap. split.
    + intros ([k o'] & -> & Hin). exists k. by apply elem_of_map_to_list.
    + intros [k Hko]. exists (k, o). split; [done|]. by apply elem_of_map_to_list.
Qed.

(** X4: on a bucket that exists, with its records keyed by their uuid, a list
    whose query Moray does not fail returns the records of the bucket, each
    once: a record is listed exactly when it is stored. *)
Theorem list_returns_the_bucket (w : world) (ba bs bi : gmap string obj) :
  fault_free w ->
  keyed_by_uuid w ->
  buckets w !! APPLICATIONS = Some ba ->
  buckets w !! SERVICES = Some bs ->
  buckets w !! INSTANCES = Some bi ->
  let lists (reply : option error * option (list obj)) (b : gmap string obj) :=
    exists objs,
      reply = (None, Some objs) /\ NoDup objs /\ length objs = size b /\
      forall o, o ∈ objs <-> exists k, b !! k = Some o in
  lists (listApplications w).1 ba /\
  lists (listServices w).1 bs /\
  lists (listInstances w).1 bi.
Proof.
  intros Hff Hk Ha Hs Hi. cbv zeta.
  split; [|split]; apply listObjects_bucket; try done.
  - intros k o. by apply (Hk APPLICATIONS).
  - intros k o. by apply (Hk SERVICES).
  - intros k o. by apply (Hk INSTANCES).
Qed.

Lemma fault_free_stocked_world : fault_free stocked_world.
Proof. by intros n r. Qed.

Lemma keyed_by_uuid_stocked_world : keyed_by_uuid stocked_world.
Proof.
  intros bucket b k o Hb Hk. cbn in Hb.
  repeat (apply lookup_insert_Some in Hb as [[_ <-]|[_ Hb]];
          [apply lookup_singleton_Some in Hk as [<- <-]; reflexivity|]).
  by rewrite lookup_empty in Hb.
Qed.

Lemma list_returns_the_bucket_witness :
  (listApplications stocked_world).1 = (None, Some [sample_app]) /\
  exists objs, (listServices stocked_world).1 = (None, Some objs) /\
               forall o, o ∈ objs <-> exists k, ({[ "s-1" := sample_svc ]} : gmap string obj) !! k = Some o.
Proof.
  destruct (list_returns_the_bucket stocked_world
              {[ "a-1" := sample_app ]} {[ "s-1" := sample_svc ]}
              {[ "i-1" := sample_inst ]}
              fault_free_stocked_world keyed_by_uuid_stocked_world
              eq_refl eq_refl eq_refl) as (_ & (objs & Hs & _ & _ & Hin) & _).
  split; [reflexivity|]. exists objs. exact (conj Hs Hin).
Defined.

(** X5: with an identifier that has no filter metacharacter, a get whose query
    Moray does not fail returns the record stored under the identifier, and
    [null] when there is none. *)
Theorem get_returns_the_stored_record (w : world) (uuid : string)
    (ba bs bi : gmap string obj) :
  plain uuid = true ->
  fault_free w ->
  keyed_by_uuid w ->
  buckets w !! APPLICATIONS = Some ba ->
  buckets w !! SERVICES = Some bs ->
  buckets w !! INSTANCES = Some bi ->
  (getApplication uuid w).1 = (None, ba !! uuid) /\
  (getService uuid w).1 = (None, bs !! uuid) /\
  (getInstance uuid w).1 = (None, bi !! uuid).
Proof.
  intros Hu Hff Hk Ha Hs Hi.
  split; [|split].
  - apply getObject_plain; try done. intros k o. by apply (Hk APPLICATIONS).
  - apply getObject_plain; try done. intros k o. by apply (Hk SERVICES).
  - apply getObject_plain; try done. intros k o. by apply (Hk INSTANCES).
Qed.

Lemma get_returns_the_stored_record_witness :
  (getApplication "a-1" stocked_world).1 = (None, Some sample_app) /\
  (getService "a-1" stocked_world).1 = (None, None) /\
  (getInstance "a-1" stocked_world).1 = (None, None).
Proof.
  exact (get_returns_the_stored_record stocked_world "a-1"
           {[ "a-1" := sample_app ]} {[ "s-1" := sample_svc ]}
           {[ "i-1" := sample_inst ]} eq_refl
           fault_free_stocked_world keyed_by_uuid_stocked_world
           eq_refl eq_refl eq_refl).
Defined.

(** ** Successful creates *)

Lemma createApplication_success (o : obj) name owner u w b user :
  o !! "name" = Some (VStr name) ->
  o !! "owner_uuid" = Some (VStr owner) ->
  users w !! owner = Some user ->
  fault_free w ->
  buckets w !! APPLICATIONS = Some b ->
  (ensure_uuid o w).1 !! "uuid" = Some (VStr u) ->
  let o' := (ensure_uuid o w).1 in
  (createApplication o w).1 = Created o' (Ok (None, o')) /\
  buckets (createApplication o w).2 = <[APPLICATIONS := <[u := o']> b]> (buckets w) /\
  same_clients w (createApplication o w).2.
Proof.
  intros Hn Ho Hu Hff Hb Huuid o'. subst o'.
  rewrite (createApplication_run o name owner w Hn Ho).
  destruct (ensure_uuid_world o w) as [n ->].
  cbn [waterfall]. rewrite check_owner_run, ufds_getUser_drawn, ufds_getUser_run.
  rewrite Hff, Hu. cbn. rewrite put_task_run, Huuid. cbn.
  by rewrite Hff, Hb.
Qed.

Lemma createService_success (o : obj) name app_uuid image_uuid u w b app img :
  o !! "name" = Some (VStr name) ->
  o !! "application_uuid" = Some (VStr app_uuid) ->
  o !! "image_uuid" = Some (VStr image_uuid) ->
  (getApplication app_uuid w).1 = (None, Some app) ->
  images w !! image_uuid = Some img ->
  fault_free w ->
  buckets w !! SERVICES = Some b ->
  (ensure_uuid o w).1 !! "uuid" = Some (VStr u) ->
  let o' := (ensure_uuid o w).1 in
  (createService o w).1 = Created o' (Ok (None, o')) /\
  buckets (createService o w).2 = <[SERVICES := <[u := o']> b]> (buckets w) /\
  same_clients w (createService o w).2.
Proof.
  intros Hn Ha Hi Happ Himg Hff Hb Huuid o'. subst o'.
  rewrite (createService_run o name app_uuid image_uuid w Hn Ha Hi).
  destruct (ensure_uuid_world o w) as [n ->].
  cbn [waterfall]. rewrite check_application_run. unfold getApplication in *.
  rewrite getObject_drawn, Happ. cbn.
  rewrite check_image_run, imgapi_getImage_run. cbn. rewrite Hff, Himg. cbn.
  rewrite put_task_run, Huuid. cbn. by rewrite Hff, Hb.
Qed.

Lemma createInstance_success (o : obj) name svc_uuid u w b svc :
  o !! "name" = Some (VStr name) ->
  o !! "service_uuid" = Some (VStr svc_uuid) ->
  (getService svc_uuid w).1 = (None, Some svc) ->
  fault_free w ->
  buckets w !! INSTANCES = Some b ->
  (ensure_uuid o w).1 !! "uuid" = Some (VStr u) ->
  let o' := (ensure_uuid o w).1 in
  (createInstance o w).1 = Created o' (Ok (None, o')) /\
  buckets (createInstance o w).2 = <[INSTANCES := <[u := o']> b]> (buckets w) /\
  same_clients w (createInstance o w).2.
Proof.
  intros Hn Hs Hsvc Hff Hb Huuid o'. subst o'.
  rewrite (createInstance_run o name svc_uuid w Hn Hs).
  destruct (ensure_uuid_world o w) as [n ->].
  cbn [waterfall]. rewrite check_service_run. unfold getService in *.
  rewrite getObject_drawn, Hsvc. cbn.
  rewrite put_task_run, Huuid. cbn. by rewrite Hff, Hb.
Qed.

Lemma ensure_uuid_record (o : obj) u w :
  (if truthy (o !! "uuid") then o !! "uuid" = Some (VStr u) else v4 w (drawn w) = u) ->
  (ensure_uuid o w).1 = (if truthy (o !! "uuid") then o else <["uuid" := VStr u]> o) /\
  (ensure_uuid o w).1 !! "uuid" = Some (VStr u).
Proof.
  rewrite ensure_uuid_run. destruct (truthy (o !! "uuid")); cbn.
  - done.
  - intros ->. by rewrite lookup_insert_eq.
Qed.

(** A lookup on the bucket a create has just written. *)
Lemma getObject_after_put bucket u (o' : obj) w w' b :
  plain u = true ->
  fault_free w' ->
  keyed_by_uuid w ->
  buckets w !! bucket = Some b ->
  o' !! "uuid" = Some (VStr u) ->
  buckets w' = <[bucket := <[u := o']> b]> (buckets w) ->
  (getObject bucket u w').1 = (None, Some o').
Proof.
  intros Hu Hff Hk Hb Ho' Hbk.
  rewrite (getObject_plain bucket u w' (<[u := o']> b)); try done.
  - by rewrite lookup_insert_eq.
  - by rewrite Hbk, lookup_insert_eq.
  - intros k o. destruct (decide (u = k)) as [<-|Hne].
    + rewrite lookup_insert_eq. by intros [= <-].
    + rewrite lookup_insert_ne by done. apply (Hk bucket b k o Hb).
Qed.

(** ** Create, then get: services and instances *)

(** X6: on a world whose services answer, with the services bucket in place and
    its records keyed by their uuid, creating a service whose application the
    lookup finds, whose image IMGAPI has and whose identifier [u] (the
    caller's string, or the generated one) has no filter metacharacter
    succeeds, and [getService] on [u] returns the stored record: the caller's
    record, with [uuid] set to [u] when it had none. *)
Theorem create_then_get_service (service : obj) (name app_uuid image_uuid u : string)
    (w : world) (b : gmap string obj) (app img : obj) :
  service !! "name" = Some (VStr name) ->
  service !! "application_uuid" = Some (VStr app_uuid) ->
  service !! "image_uuid" = Some (VStr image_uuid) ->
  (getApplication app_uuid w).1 = (None, Some app) ->
  images w !! image_uuid = Some img ->
  fault_free w ->
  buckets w !! SERVICES = Some b ->
  keyed_by_uuid w ->
  (if truthy (service !! "uuid") then service !! "uuid" = Some (VStr u)
   else v4 w (drawn w) = u) ->
  plain u = true ->
  let service' := if truthy (service !! "uuid") then service
                  else <["uuid" := VStr u]> service in
  outcome (createService service w).1 = Ok (None, service') /\
  buckets (createService service w).2 !! SERVICES = Some (<[u := service']> b) /\
  (getService u (createService service w).2).1 = (None, Some service').
Proof.
  intros Hn Ha Hi Happ Himg Hff Hb Hk Hu Hplain service'.
  destruct (ensure_uuid_record service u w Hu) as [Hrec Huuid].
  destruct (createService_success service name app_uuid image_uuid u w b app img
              Hn Ha Hi Happ Himg Hff Hb Huuid) as (Hrun & Hbk & Hsame).
  rewrite Hrec in *. fold service' in Hrun, Hbk, Huuid.
  rewrite Hrun. cbn. split; [done|]. split; [by rewrite Hbk, lookup_insert_eq|].
  apply (getObject_after_put SERVICES u service' w _ b); try done.
  by apply (same_clients_fault_free w).
Qed.

Lemma create_then_get_service_witness :
  outcome (createService new_svc stocked_world).1 =
    Ok (None, <["uuid" := VStr (sample_v4 0)]> new_svc) /\
  (getService (sample_v4 0) (createService new_svc stocked_world).2).1 =
    (None, Some (<["uuid" := VStr (sample_v4 0)]> new_svc)).
Proof.
  destruct (create_then_get_service new_svc "svc2" "a-1" "img-1" (sample_v4 0)
              stocked_world {[ "s-1" := sample_svc ]} sample_app
              {[ "name" := VStr "smartos" ]}
              eq_refl eq_refl eq_refl eq_refl eq_refl
              fault_free_stocked_world eq_refl keyed_by_uuid_stocked_world
              eq_refl eq_refl) as (Hout & _ & Hget).
  exact (conj Hout Hget).
Defined.

(** X7: on a world whose services answer, with the instances bucket in place
    and its records keyed by their uuid, creating an instance whose service
    the lookup finds and whose identifier [u] (the caller's string, or the
    generated one) has no filter metacharacter succeeds, and [getInstance] on
    [u] returns the stored record: the caller's record, with [uuid] set to
    [u] when it had none. *)
Theorem create_then_get_instance (instance : obj) (name svc_uuid u : string)
    (w : world) (b : gmap string obj) (svc : obj) :
  instance !! "name" = Some (VStr name) ->
  instance !! "service_uuid" = Some (VStr svc_uuid) ->
  (getService svc_uuid w).1 = (None, Some svc) ->
  fault_free w ->
  buckets w !! INSTANCES = Some b ->
  keyed_by_uuid w ->
  (if truthy (instance !! "uuid") then instance !! "uuid" = Some (VStr u)
   else v4 w (drawn w) = u) ->
  plain u = true ->
  let instance' := if truthy (instance !! "uuid") then instance
                   else <["uuid" := VStr u]> instance in
  outcome (createInstance instance w).1 = Ok (None, instance') /\
  buckets (createInstance instance w).2 !! INSTANCES = Some (<[u := instance']> b) /\
  (getInstance u (createInstance instance w).2).1 = (None, Some instance').
Proof.
  intros Hn Hs Hsvc Hff Hb Hk Hu Hplain instance'.
  destruct (ensure_uuid_record instance u w Hu) as [Hrec Huuid].
  destruct (createInstance_success instance name svc_uuid u w b svc
              Hn Hs Hsvc Hff Hb Huuid) as (Hrun & Hbk & Hsame).
  rewrite Hrec in *. fold instance' in Hrun, Hbk, Huuid.
  rewrite Hrun. cbn. split; [done|]. split; [by rewrite Hbk, lookup_insert_eq|].
  apply (getObject_after_put INSTANCES u instance' w _ b); try done.
  by apply (same_clients_fault_free w).
Qed.

Lemma create_then_get_instance_witness :
  outcome (createInstance new_inst stocked_world).1 =
    Ok (None, <["uuid" := VStr (sample_v4 0)]> new_inst) /\
  (getInstance (sample_v4 0) (createInstance new_inst stocked_world).2).1 =
    (None, Some (<["uuid" := VStr (sample_v4 0)]> new_inst)).
Proof.
  destruct (create_then_get_instance new_inst "inst2" "s-1" (sample_v4 0)
              stocked_world {[ "i-1" := sample_inst ]} sample_svc
              eq_refl eq_refl eq_refl
              fault_free_stocked_world eq_refl keyed_by_uuid_stocked_world
              eq_refl eq_refl) as (Hout & _ & Hget).
  exact (conj Hout Hget).
Defined.

(** ** Lists after a create *)

Lemma listObjects_same_store bucket w w' :
  fault_free w -> fault_free w' -> buckets w' = buckets w ->
  (listObjects bucket w').1 = (listObjects bucket w).1.
Proof.
  intros Hff Hff' Hb. unfold listObjects. rewrite !findObjects_run. cbn.
  by rewrite Hff, Hff', Hb.
Qed.

Lemma created_is_listed bucket (o : obj) w run r :
  fault_free w -> keyed_by_uuid w -> keyed_by_uuid run.2 ->
  create_shape bucket o w run ->
  outcome run.1 = Ok (None, r) ->
  exists objs, (listObjects bucket run.2).1 = (None, Some objs) /\ r ∈ objs.
Proof.
  intros Hff Hk Hk' Hshape Hout.
  destruct (create_shape_effect bucket o w run Hshape)
    as (Hsame & [(_ & b & u & Hb & Hu & Hout' & Hbk)|[Hfail _]]);
    [|by destruct (Hfail r)].
  assert (r = record_after run.1) as -> by congruence.
  assert (Hb' : buckets run.2 !! bucket = Some (<[u := record_after run.1]> b)).
  { by rewrite Hbk, lookup_insert_eq. }
  destruct (listObjects_bucket bucket run.2 _
              (same_clients_fault_free w run.2 Hsame Hff _ _) Hb'
              (fun k o => Hk' bucket _ k o Hb')) as (objs & Hl & _ & _ & Hin).
  exists objs. split; [done|]. apply Hin. exists u. by rewrite lookup_insert_eq.
Qed.

Lemma not_created_same_list bucket (o : obj) w run :
  fault_free w ->
  create_shape bucket o w run ->
  (forall r, outcome run.1 <> Ok (None, r)) ->
  (listObjects bucket run.2).1 = (listObjects bucket w).1.
Proof.
  intros Hff Hshape Hfail.
  destruct (create_shape_effect bucket o w run Hshape)
    as (Hsame & [((r & Hr) & _)|[_ Hbk]]); [by destruct (Hfail r)|].
  apply listObjects_same_store; [done| |done].
  by apply (same_clients_fault_free w).
Qed.

(** X8: on a world whose services answer and whose records are keyed by their
    uuid, the list of a kind taken after a create of that kind holds the new
    record when the create succeeded, and is the list taken before it when
    it did not. *)
Theorem list_reflects_create (o : obj) (w : world) :
  fault_free w ->
  keyed_by_uuid w ->
  let reflects (list : state (option error * option (list obj)))
               (run : created * world) :=
    (forall r, outcome run.1 = Ok (None, r) ->
       exists objs, (list run.2).1 = (None, Some objs) /\ r ∈ objs) /\
    ((forall r, outcome run.1 <> Ok (None, r)) -> (list run.2).1 = (list w).1) in
  reflects listApplications (createApplication o w) /\
  reflects listServices (createService o w) /\
  reflects listInstances (createInstance o w).
Proof.
  intros Hff Hk. destruct (create_keyed o w Hk) as (Hka & Hks & Hki). cbv zeta.
  split; [|split]; split.
  - intros r. by apply (created_is_listed APPLICATIONS o w), createApplication_shape.
  - by apply (not_created_same_list APPLICATIONS o w), createApplication_shape.
  - intros r. by apply (created_is_listed SERVICES o w), createService_shape.
  - by apply (not_created_same_list SERVICES o w), createService_shape.
  - intros r. by apply (created_is_listed INSTANCES o w), createInstance_shape.
  - by apply (not_created_same_list INSTANCES o w), createInstance_shape.
Qed.

Lemma list_reflects_create_witness :
  (exists objs,
     (listServices (createService new_svc stocked_world).2).1 = (None, Some objs) /\
     <["uuid" := VStr (sample_v4 0)]> new_svc ∈ objs) /\
  (listServices (createService imageless_svc stocked_world).2).1 =
    (listServices stocked_world).1.
Proof.
  destruct (list_reflects_create new_svc stocked_world
              fault_free_stocked_world keyed_by_uuid_stocked_world)
    as (_ & (Hok & _) & _).
  destruct (list_reflects_create imageless_svc stocked_world
              fault_free_stocked_world keyed_by_uuid_stocked_world)
    as (_ & (_ & Hfail) & _).
  split.
  - apply (Hok (<["uuid" := VStr (sample_v4 0)]> new_svc)). vm_compute. reflexivity.
  - apply Hfail. intros r H.
    assert (Hc : outcome (createService imageless_svc stocked_world).1 =
                 Ok (Some (Error "image img-9 doesn't exist"),
                     <["uuid" := VStr (sample_v4 0)]> imageless_svc)) by reflexivity.
    rewrite Hc in H. discriminate H.
Defined.

(** ** Deployment reads and provisions, and does nothing else *)

Lemma deployInstance_world (instance : obj) w :
  exists rs, (deployInstance instance w).2 = set_trace (trace w ++ rs) w.
Proof.
  assert (Hnil : w = set_trace (trace w ++ []) w).
  { rewrite app_nil_r. by destruct w. }
  unfold deployInstance.
  destruct (as_string (instance !! "service_uuid")) as [uuid|]; [|by exists []].
  unfold bind, getService, getApplication.
  pose proof (getObject_world SERVICES uuid w) as Hw1.
  destruct (getObject SERVICES uuid w) as [[err1 found1] w1]. cbn in Hw1. subst w1.
  destruct err1 as [e|]; [by eexists|].
  destruct found1 as [service|]; [|by eexists].
  destruct (as_string (service !! "application_uuid")) as [app_uuid|]; [|by eexists].
  pose proof (getObject_world APPLICATIONS app_uuid
                (set_trace (trace w ++ [FindObjects SERVICES ("(uuid=" +:+ uuid +:+ ")")]) w))
    as Hw2.
  destruct (getObject APPLICATIONS app_uuid _) as [[err2 found2] w2]. cbn in Hw2. subst w2.
  destruct err2 as [e|].
  { eexists. cbn. by rewrite <- app_assoc. }
  unfold deploy_step3.
  destruct (assembleParams found2 service instance) as [params|e].
  - unfold bind. rewrite deployZone_run. cbn. eexists. by rewrite <- !app_assoc.
  - eexists. cbn. by rewrite <- app_assoc.
Qed.

(** X9: [deployInstance] writes nothing: whatever the instance and the world,
    the buckets are after the call what they were before it. *)
Theorem deployInstance_leaves_the_store (instance : obj) (w : world) :
  buckets (deployInstance instance w).2 = buckets w /\
  drawn (deployInstance instance w).2 = drawn w /\
  same_clients w (deployInstance instance w).2.
Proof.
  destruct (deployInstance_world instance w) as [rs ->]. by repeat split.
Qed.

(** X12: when the service of an instance is found and its application is not,
    [deployInstance] does not call [cb]: [assembleParams] reads [params] of
    the [null] that the lookup returned and throws.  The two lookups are all
    that was sent. *)
Theorem deployInstance_missing_application (instance service : obj)
    (svc_uuid app_uuid : string) (w : world) :
  instance !! "service_uuid" = Some (VStr svc_uuid) ->
  (getService svc_uuid w).1 = (None, Some service) ->
  service !! "application_uuid" = Some (VStr app_uuid) ->
  (getApplication app_uuid (getService svc_uuid w).2).1 = (None, None) ->
  (deployInstance instance w).1 =
    Deployed [] (Some (TypeError "Cannot read property 'params' of null")) /\
  trace (deployInstance instance w).2 =
    trace w ++ [FindObjects SERVICES ("(uuid=" +:+ svc_uuid +:+ ")");
                FindObjects APPLICATIONS ("(uuid=" +:+ app_uuid +:+ ")")].
Proof.
  intros Hs Hsvc Ha Happ. unfold deployInstance. rewrite Hs. cbn [as_string].
  unfold bind, getService, getApplication in *.
  pose proof (getObject_world SERVICES svc_uuid w) as Hw1.
  destruct (getObject SERVICES svc_uuid w) as [[err1 found1] w1].
  cbn in Hsvc, Hw1, Happ. simplify_eq. rewrite Ha. cbn [as_string].
  pose proof (getObject_world APPLICATIONS app_uuid
                (set_trace (trace w ++ [FindObjects SERVICES ("(uuid=" +:+ svc_uuid +:+ ")")]) w))
    as Hw2.
  destruct (getObject APPLICATIONS app_uuid _) as [[err2 found2] w2].
  cbn in Happ, Hw2. simplify_eq. cbn. by rewrite <- app_assoc.
Qed.

Lemma deployInstance_missing_application_witness :
  (deployInstance sample_inst orphaned_world).1 =
    Deployed [] (Some (TypeError "Cannot read property 'params' of null")) /\
  trace (deployInstance sample_inst orphaned_world).2 =
    [FindObjects SERVICES "(uuid=s-1)"; FindObjects APPLICATIONS "(uuid=a-1)"].
Proof.
  exact (deployInstance_missing_application sample_inst sample_svc "s-1" "a-1"
           orphaned_world eq_refl eq_refl eq_refl eq_refl).
Defined.

Lemma deployInstance_service_lookup_error_witness :
  (deployInstance sample_inst broken_world).1 =
    Deployed [Some storage_down]
      (Some (TypeError "Cannot read property 'application_uuid' of undefined")) /\
  trace (deployInstance sample_inst broken_world).2 =
    [FindObjects SERVICES "(uuid=s-1)"].
Proof.
  exact (deployInstance_service_lookup_error sample_inst "s-1" broken_world
           storage_down eq_refl eq_refl).
Defined.

(** ** What every call keeps *)

Lemma createBucket_step_world name cfg p w :
  same_clients w (createBucket_step name cfg p w).2 /\
  (buckets (createBucket_step name cfg p w).2 = buckets w \/
   buckets w !! name = None /\
   buckets (createBucket_step name cfg p w).2 = <[name := ∅]> (buckets w)).
Proof.
  destruct p; [| |split; [apply same_clients_refl|by left]].
  - unfold createBucket_step, moray_getBucket, bind, serve. cbn.
    destruct (fault w _ _) as [e|]; cbn.
    + destruct (negb _); (split; [by repeat split|by left]).
    + destruct (buckets w !! name); (split; [by repeat split|by left]).
  - unfold createBucket_step, moray_createBucket, bind, serve. cbn.
    destruct (fault w _ _) as [e|]; cbn; [split; [by repeat split|by left]|].
    destruct (buckets w !! name) eqn:Hb; cbn.
    + split; [by repeat split|by left].
    + split; [by repeat split|]. by right.
Qed.

Lemma initBuckets_same_clients sched w :
  same_clients w (initBuckets sched w).2.
Proof.
  rewrite initBuckets_run. cbn.
  apply (run_schedule_invariant bucket_cfg (fun w' _ => same_clients w w'));
    [|apply same_clients_refl].
  intros w' ops i name p Hsame _.
  eapply same_clients_trans; [exact Hsame|].
  apply createBucket_step_world.
Qed.

Lemma findObjects_world bucket flt w :
  (findObjects bucket flt w).2 = set_trace (trace w ++ [FindObjects bucket flt]) w.
Proof. by rewrite findObjects_run. Qed.

Lemma run_call_keeps c w :
  keyed_by_uuid w ->
  keyed_by_uuid (run_call c w) /\ same_clients w (run_call c w).
Proof.
  intros Hk. destruct c; cbn [run_call].
  - split; [by apply initBuckets_keyed|apply initBuckets_same_clients].
  - split; [by apply create_keyed|].
    apply (create_shape_effect APPLICATIONS app w), createApplication_shape.
  - split; [by apply create_keyed|].
    apply (create_shape_effect SERVICES service w), createService_shape.
  - split; [by apply create_keyed|].
    apply (create_shape_effect INSTANCES instance w), createInstance_shape.
  - unfold getApplication. rewrite getObject_world. by repeat split.
  - unfold getService. rewrite getObject_world. by repeat split.
  - unfold getInstance. rewrite getObject_world. by repeat split.
  - unfold listApplications, listObjects. rewrite findObjects_world. by repeat split.
  - unfold listServices, listObjects. rewrite findObjects_world. by repeat split.
  - unfold listInstances, listObjects. rewrite findObjects_world. by repeat split.
  - destruct (deployInstance_world instance w) as [rs ->]. by repeat split.
Qed.

(** X15: whatever calls are made, in whatever order and with whatever outcome,
    every record of the store stays under its own uuid, and the module
    changes nothing of UFDS, IMGAPI, the failures to come or the generator.
    A store without buckets is where a deployment starts from. *)
Theorem calls_keep_records_keyed (cs : list call) (w : world) :
  (keyed_by_uuid w \/ buckets w = ∅) ->
  keyed_by_uuid (run_calls cs w) /\ same_clients w (run_calls cs w).
Proof.
  intros Hw.
  assert (Hk : keyed_by_uuid w).
  { destruct Hw as [?|Hempty]; [done|].
    intros bucket b k o Hb. by rewrite Hempty, lookup_empty in Hb. }
  clear Hw. revert w Hk. induction cs as [|c cs IH]; intros w Hk.
  - split; [done|apply same_clients_refl].
  - cbn. destruct (run_call_keeps c w Hk) as [Hk' Hsame].
    destruct (IH _ Hk') as [Hk'' Hsame'].
    split; [done|]. by eapply same_clients_trans.
Qed.

Lemma calls_keep_records_keyed_witness :
  keyed_by_uuid
    (run_calls [InitBuckets [0; 1; 2; 0; 1; 2]; CreateApplication sample_app;
                CreateService sample_svc; GetService "*";
                CreateInstance sample_inst; DeployInstance sample_inst]
       fresh_world).
Proof.
  exact (proj1 (calls_keep_records_keyed _ fresh_world (or_intror eq_refl))).
Defined.

(** ** Bucket initialization keeps what is stored *)

(** X16: whatever the schedule and whatever fails, [initBuckets] leaves every
    bucket that exists as it is, records included. *)
Theorem initBuckets_keeps_buckets (sched : list nat) (w : world)
    (name : string) (b : gmap string obj) :
  buckets w !! name = Some b ->
  buckets (initBuckets sched w).2 !! name = Some b.
Proof.
  intros Hb. rewrite initBuckets_run. cbn.
  apply (run_schedule_invariant bucket_cfg (fun w' _ => buckets w' !! name = Some b));
    [|done].
  intros w' ops i name' p Hb' _.
  destruct (createBucket_step_world name' bucket_cfg p w') as (_ & [-> |[Hnone ->]]);
    [done|].
  rewrite lookup_insert_ne; [done|]. intros ->. congruence.
Qed.

Lemma initBuckets_keeps_buckets_witness :
  buckets (initBuckets [2; 0; 0; 1; 2; 1] stocked_world).2 !! SERVICES =
    Some {[ "s-1" := sample_svc ]} /\
  buckets (initBuckets [2; 0; 0; 1; 2; 1] broken_world).2 !! SERVICES =
    Some {[ "s-1" := sample_svc ]}.
Proof.
  split.
  - exact (initBuckets_keeps_buckets _ stocked_world SERVICES _ eq_refl).
  - exact (initBuckets_keeps_buckets _ broken_world SERVICES _ eq_refl).
Defined.

(** X17: on a world without faults a fair run of [initBuckets] adds the buckets
    that are missing, empty, and changes nothing else: the buckets are after
    the run the ones there were, with an empty bucket for each of the three
    names that had none. *)
Theorem initBuckets_adds_the_missing_buckets (sched : list nat) (w : world) :
  fault_free w -> fair 3 sched ->
  buckets (initBuckets sched w).2 =
    buckets w ∪ (<[APPLICATIONS := ∅]> (<[SERVICES := ∅]> {[ INSTANCES := ∅ ]})).
Proof.
  intros Hff Hfair.
  destruct (initBuckets_fault_free sched w Hff Hfair) as (_ & _ & Ha & Hs & Hi).
  pose proof (run_schedule_names bucket_cfg sched
                [(APPLICATIONS, GetPending); (SERVICES, GetPending);
                 (INSTANCES, GetPending)] w) as Hnames.
  rewrite initBuckets_run in *. cbn [fst snd] in *.
  set (ops0 := [(APPLICATIONS, GetPending); (SERVICES, GetPending);
                (INSTANCES, GetPending)]) in *.
  pose proof (run_schedule_invariant bucket_cfg
    (fun w' ops => ops.*1 = ops0.*1 /\
       forall name,
         buckets w' !! name = buckets w !! name \/
         (buckets w !! name = None /\ buckets w' !! name = Some ∅ /\ name ∈ ops0.*1))) as Hinv.
  destruct (Hinv) with (sched := sched) (ops := ops0) (w := w) as [_ Hfin].
  { intros w' ops i name' p [Hn HI] Hiop. split.
    { by erewrite names_insert. }
    intros name.
    destruct (createBucket_step_world name' bucket_cfg p w') as (_ & [-> |[Hnone ->]]);
      [apply HI|].
    destruct (decide (name' = name)) as [->|Hne].
    - rewrite lookup_insert_eq. destruct (HI name) as [Heq|(_ & Hsome & _)];
        [|congruence].
      right. split; [congruence|]. split; [done|]. rewrite <- Hn.
      apply list_elem_of_fmap. exists (name, p). split; [done|].
      by eapply list_elem_of_lookup_2.
    - rewrite lookup_insert_ne by done. apply HI. }
  { split; [done|]. intros name. by left. }
  clear Hinv. apply map_eq. intros name.
  destruct (Hfin name) as [Heq|(Hnone & Hsome & Hin)].
  - rewrite Heq. destruct (buckets w !! name) as [b|] eqn:Hb.
    + symmetry. by apply lookup_union_Some_l.
    + rewrite lookup_union_r by done.
      destruct (decide (name = APPLICATIONS)) as [->|Hna].
      { rewrite Heq in Ha. by destruct Ha. }
      destruct (decide (name = SERVICES)) as [->|Hns].
      { rewrite Heq in Hs. by destruct Hs. }
      destruct (decide (name = INSTANCES)) as [->|Hni].
      { rewrite Heq in Hi. by destruct Hi. }
      rewrite !lookup_insert_ne by done. by rewrite lookup_singleton_ne.
  - rewrite Hsome, lookup_union_r by done. cbn in Hin.
    apply elem_of_cons in Hin as [->|Hin]; [by rewrite lookup_insert_eq|].
    apply elem_of_cons in Hin as [->|Hin]; [reflexivity|].
    apply elem_of_cons in Hin as [->|Hin]; [reflexivity|].
    by apply elem_of_nil in Hin.
Qed.

Lemma initBuckets_adds_the_missing_buckets_witness :
  buckets (initBuckets [2; 0; 0; 1; 2; 1] fresh_world).2 = buckets empty_world /\
  buckets (initBuckets [0; 1; 2; 0; 1; 2] stocked_world).2 = buckets stocked_world.
Proof.
  split.
  - exact (initBuckets_adds_the_missing_buckets _ fresh_world
             fault_free_fresh_world fair_interleaved).
  - exact (initBuckets_adds_the_missing_buckets _ stocked_world
             fault_free_stocked_world fair_in_order).
Defined.

(** ** Parameter assembly: the derived fields, and params that are not maps *)

(** X18: whenever [assembleParams] returns, whatever the three [params] are, the
    application was found, and [owner_uuid], [image_uuid] and [uuid] of the
    result are the strings the application, the service and the instance
    carry under these names. *)
Theorem assembleParams_derived_fields (app : option obj) (svc inst params : obj) :
  assembleParams app svc inst = Ok params ->
  exists a owner image uuid,
    app = Some a /\
    a !! "owner_uuid" = Some (VStr owner) /\
    svc !! "image_uuid" = Some (VStr image) /\
    inst !! "uuid" = Some (VStr uuid) /\
    params !! "owner_uuid" = Some (VStr owner) /\
    params !! "image_uuid" = Some (VStr image) /\
    params !! "uuid" = Some (VStr uuid).
Proof.
  unfold assembleParams. destruct app as [a|]; [|done].
  destruct (merge_level (a !! "params") _) as [p1|]; [|done]. cbn [rbind].
  destruct (merge_level (svc !! "params") p1) as [p2|]; [|done]. cbn [rbind].
  destruct (merge_level (inst !! "params") p2) as [p3|]; [|done]. cbn [rbind].
  unfold assert_string.
  destruct (as_string (a !! "owner_uuid")) as [owner|] eqn:Ho; [|done]. cbn [rbind].
  destruct (as_string (svc !! "image_uuid")) as [image|] eqn:Hi; [|done]. cbn [rbind].
  destruct (as_string (inst !! "uuid")) as [uuid|] eqn:Hu; [|done]. cbn [rbind].
  rewrite !set_prop_own by done. cbn [own].
  intros [= <-]. apply as_string_Some in Ho, Hi, Hu.
  exists a, owner, image, uuid. repeat split; try done; by simplify_map_eq.
Qed.

Lemma assembleParams_derived_fields_witness :
  exists params,
    assembleParams (Some sample_app) array_params_svc sample_inst = Ok params /\
    params !! "owner_uuid" = Some (VStr "admin") /\
    params !! "image_uuid" = Some (VStr "img-1") /\
    params !! "uuid" = Some (VStr "i-1") /\
    params !! "0" = Some (VStr "x").
Proof.
  eexists. split; [reflexivity|].
  destruct (assembleParams_derived_fields (Some sample_app) array_params_svc sample_inst
              _ eq_refl) as (a & owner & image & uuid & Ha & Ho & Hi & Hu & H1 & H2 & H3).
  injection Ha as <-.
  split; [reflexivity|]. split; [reflexivity|]. split; reflexivity.
Defined.

(** X19: a [params] that is present but falsy ([null], [false], [0], the empty
    string) is skipped like one that is absent, at each of the three
    levels. *)
Theorem assembleParams_skips_falsy_params (app svc inst : obj) :
  (truthy (app !! "params") = false ->
     assembleParams (Some app) svc inst =
     assembleParams (Some (delete "params" app)) svc inst) /\
  (truthy (svc !! "params") = false ->
     assembleParams (Some app) svc inst =
     assembleParams (Some app) (delete "params" svc) inst) /\
  (truthy (inst !! "params") = false ->
     assembleParams (Some app) svc inst =
     assembleParams (Some app) svc (delete "params" inst)).
Proof.
  split; [|split]; intros Hf; unfold assembleParams.
  - rewrite lookup_delete_eq, (lookup_delete_ne app "params" "owner_uuid") by done.
    unfold merge_level at 1 4. by rewrite Hf.
  - rewrite lookup_delete_eq, (lookup_delete_ne svc "params" "image_uuid") by done.
    unfold merge_level at 2 5. by rewrite Hf.
  - rewrite lookup_delete_eq, (lookup_delete_ne inst "params" "uuid") by done.
    unfold merge_level at 3 6. by rewrite Hf.
Qed.

Lemma assembleParams_skips_falsy_params_witness :
  assembleParams (Some null_params_app) sample_svc sample_inst =
  assembleParams (Some new_app) sample_svc sample_inst.
Proof.
  destruct (assembleParams_skips_falsy_params null_params_app sample_svc sample_inst)
    as (Happ & _).
  exact (Happ eq_refl).
Defined.

(** ** From three creates to the provisioning request *)

Lemma deployInstance_provision_run (instance service : obj) (application : option obj)
    svc_uuid app_uuid (params : obj) w :
  instance !! "service_uuid" = Some (VStr svc_uuid) ->
  (getService svc_uuid w).1 = (None, Some service) ->
  service !! "application_uuid" = Some (VStr app_uuid) ->
  (getApplication app_uuid (getService svc_uuid w).2).1 = (None, application) ->
  assembleParams application service instance = Ok params ->
  deployInstance instance w =
    (Deployed [fault w (S (S (length (trace w)))) (CreateVm (zone_fields params))] None,
     set_trace (trace w ++
                  [FindObjects SERVICES ("(uuid=" +:+ svc_uuid +:+ ")");
                   FindObjects APPLICATIONS ("(uuid=" +:+ app_uuid +:+ ")");
                   CreateVm (zone_fields params)]) w).
Proof.
  intros Hs Hsvc Ha Happ Hparams.
  unfold deployInstance. rewrite Hs. cbn [as_string]. unfold bind.
  unfold getService, getApplication in *.
  pose proof (getObject_world SERVICES svc_uuid w) as Hw1.
  destruct (getObject SERVICES svc_uuid w) as [[err1 found1] w1].
  simpl in Hsvc, Hw1, Happ. simplify_eq. rewrite Ha. cbn [as_string].
  pose proof (getObject_world APPLICATIONS app_uuid
                (set_trace (trace w ++ [FindObjects SERVICES ("(uuid=" +:+ svc_uuid +:+ ")")]) w)) as Hw2.
  destruct (getObject APPLICATIONS app_uuid _) as [[err2 found2] w2].
  simpl in Happ, Hw2. simplify_eq.
  unfold deploy_step3. rewrite Hparams. unfold bind. rewrite deployZone_run.
  cbn. rewrite !length_app, <- !app_assoc. cbn.
  by replace (length (trace w) + 1 + 1) with (S (S (length (trace w)))) by lia.
Qed.

Lemma getObject_stored bucket u (o : obj) w b :
  plain u = true ->
  fault_free w ->
  keyed_by_uuid w ->
  buckets w !! bucket = Some b ->
  b !! u = Some o ->
  (getObject bucket u w).1 = (None, Some o).
Proof.
  intros Hu Hff Hk Hb Ho.
  rewrite (getObject_plain bucket u w b); try done.
  - by rewrite Ho.
  - intros k o'. apply (Hk bucket b k o' Hb).
Qed.

Lemma bucket_names_differ :
  APPLICATIONS <> SERVICES /\ APPLICATIONS <> INSTANCES /\ SERVICES <> INSTANCES.
Proof. repeat split; intros H; discriminate H. Qed.

(** X14: on a world whose services answer, with the three buckets in place and
    their records keyed by their uuid, an application, a service of that
    application and an instance of that service are created one after the
    other; the identifiers of the application and of the service have no
    filter metacharacter, and each [params] is absent or a map without the
    key [__proto__].  Deploying the instance the third create returned then
    sends VMAPI one request: the instance's params over the service's over
    the application's, [owner_uuid] of the application, [image_uuid] of the
    service, [uuid] of the instance, and the four fixed fields; [cb]
    receives [null]. *)
Theorem create_chain_then_deploy (app svc inst : obj) (w : world)
    (name_a name_s name_i owner image ua us ui : string) (user img : obj)
    (ba bs bi : gmap string obj) (pa ps pi : option obj) :
  fault_free w ->
  keyed_by_uuid w ->
  buckets w !! APPLICATIONS = Some ba ->
  buckets w !! SERVICES = Some bs ->
  buckets w !! INSTANCES = Some bi ->
  app !! "name" = Some (VStr name_a) ->
  app !! "owner_uuid" = Some (VStr owner) ->
  users w !! owner = Some user ->
  app !! "params" = VObj <$> pa ->
  svc !! "name" = Some (VStr name_s) ->
  svc !! "application_uuid" = Some (VStr ua) ->
  svc !! "image_uuid" = Some (VStr image) ->
  images w !! image = Some img ->
  svc !! "params" = VObj <$> ps ->
  inst !! "name" = Some (VStr name_i) ->
  inst !! "service_uuid" = Some (VStr us) ->
  inst !! "params" = VObj <$> pi ->
  default ∅ pa !! "__proto__" = None ->
  default ∅ ps !! "__proto__" = None ->
  default ∅ pi !! "__proto__" = None ->
  plain ua = true ->
  plain us = true ->
  let w1 := (createApplication app w).2 in
  let w2 := (createService svc w1).2 in
  let w3 := (createInstance inst w2).2 in
  (if truthy (app !! "uuid") then app !! "uuid" = Some (VStr ua)
   else v4 w (drawn w) = ua) ->
  (if truthy (svc !! "uuid") then svc !! "uuid" = Some (VStr us)
   else v4 w1 (drawn w1) = us) ->
  (if truthy (inst !! "uuid") then inst !! "uuid" = Some (VStr ui)
   else v4 w2 (drawn w2) = ui) ->
  let inst' := record_after (createInstance inst w2).1 in
  let sent :=
    <["server_uuid" := VStr "44454c4c-4800-1034-804a-b2c04f354d31"]>
      (<["networks" := VArr [VStr "cda22a50-15bd-43cf-b379-be0cbac60cb4"]]>
        (<["ram" := VNum 256]>
          (<["brand" := VStr "joyent-minimal"]>
            (<["uuid" := VStr ui]>
              (<["image_uuid" := VStr image]>
                (<["owner_uuid" := VStr owner]>
                  (default ∅ pi ∪ (default ∅ ps ∪ default ∅ pa)))))))) in
  (deployInstance inst' w3).1 = Deployed [None] None /\
  vm_requests (trace (deployInstance inst' w3).2) = vm_requests (trace w3) ++ [sent].
Proof.
  intros Hff Hk Hba Hbs Hbi Hna Hoa Huser Hpa Hns Has His Himg Hps Hni Hsi Hpi
         Hproto_a Hproto_s Hproto_i Hplain_a Hplain_s w1 w2 w3 Hua Hus Hui inst' sent.
  destruct bucket_names_differ as (Hne1 & Hne2 & Hne3).
  (* the application *)
  destruct (ensure_uuid_record app ua w Hua) as [Hrec_a Huuid_a].
  destruct (createApplication_success app name_a owner ua w ba user
              Hna Hoa Huser Hff Hba Huuid_a) as (_ & Hbk1 & Hsame1).
  set (app' := (ensure_uuid app w).1) in *.
  fold w1 in Hbk1, Hsame1.
  assert (Hff1 : fault_free w1) by by apply (same_clients_fault_free w).
  assert (Hk1 : keyed_by_uuid w1) by by apply create_keyed.
  assert (Hget_a1 : (getApplication ua w1).1 = (None, Some app')).
  { apply (getObject_after_put APPLICATIONS ua app' w w1 ba); done. }
  (* the service *)
  destruct (ensure_uuid_record svc us w1 Hus) as [Hrec_s Huuid_s].
  assert (Himg1 : images w1 !! image = Some img).
  { destruct Hsame1 as (_ & -> & _). done. }
  assert (Hbs1 : buckets w1 !! SERVICES = Some bs).
  { rewrite Hbk1, lookup_insert_ne; done. }
  destruct (createService_success svc name_s ua image us w1 bs app' img
              Hns Has His Hget_a1 Himg1 Hff1 Hbs1 Huuid_s) as (_ & Hbk2 & Hsame2).
  set (svc' := (ensure_uuid svc w1).1) in *.
  fold w2 in Hbk2, Hsame2.
  assert (Hff2 : fault_free w2) by by apply (same_clients_fault_free w1).
  assert (Hk2 : keyed_by_uuid w2) by by apply create_keyed.
  assert (Hget_s2 : (getService us w2).1 = (None, Some svc')).
  { apply (getObject_after_put SERVICES us svc' w1 w2 bs); done. }
  (* the instance *)
  destruct (ensure_uuid_record inst ui w2 Hui) as [Hrec_i Huuid_i].
  assert (Hbi2 : buckets w2 !! INSTANCES = Some bi).
  { rewrite Hbk2, lookup_insert_ne by done. rewrite Hbk1, lookup_insert_ne; done. }
  destruct (createInstance_success inst name_i us ui w2 bi svc'
              Hni Hsi Hget_s2 Hff2 Hbi2 Huuid_i) as (Hrun3 & Hbk3 & Hsame3).
  fold w3 in Hbk3, Hsame3.
  assert (Hinst' : inst' = (ensure_uuid inst w2).1).
  { subst inst'. by rewrite Hrun3. }
  assert (Hff3 : fault_free w3) by by apply (same_clients_fault_free w2).
  assert (Hk3 : keyed_by_uuid w3) by by apply create_keyed.
  (* the deployment *)
  assert (Hget_s3 : (getService us w3).1 = (None, Some svc')).
  { apply (getObject_stored SERVICES us svc' w3 (<[us := svc']> bs)); try done.
    - rewrite Hbk3, lookup_insert_ne by done. by rewrite Hbk2, lookup_insert_eq.
    - by rewrite lookup_insert_eq. }
  assert (Hget_a3 : (getApplication ua (getService us w3).2).1 = (None, Some app')).
  { unfold getService. rewrite getObject_world.
    apply (getObject_stored APPLICATIONS ua app' _ (<[ua := app']> ba)); try done.
    - cbn. rewrite Hbk3, lookup_insert_ne by done.
      rewrite Hbk2, lookup_insert_ne by done. by rewrite Hbk1, lookup_insert_eq.
    - by rewrite lookup_insert_eq. }
  assert (Hfield : forall (o : obj) u w0 k,
            k <> "uuid" ->
            (ensure_uuid o w0).1 = (if truthy (o !! "uuid") then o
                                    else <["uuid" := VStr u]> o) ->
            (ensure_uuid o w0).1 !! k = o !! k).
  { intros o u w0 k Hne ->. destruct (truthy (o !! "uuid")); [done|].
    by rewrite lookup_insert_ne. }
  assert (Hsvc_app : svc' !! "application_uuid" = Some (VStr ua)).
  { subst svc'. rewrite (Hfield svc us w1 "application_uuid"); done. }
  assert (Hparams : assembleParams (Some app') svc' inst' =
                    Ok (<["uuid" := VStr ui]>
                         (<["image_uuid" := VStr image]>
                           (<["owner_uuid" := VStr owner]>
                             (default ∅ pi ∪ (default ∅ ps ∪ default ∅ pa)))))).
  { unfold assembleParams. rewrite Hinst'. subst app' svc'.
    rewrite (Hfield app ua w "params"), (Hfield svc us w1 "params"),
      (Hfield inst ui w2 "params"), (Hfield app ua w "owner_uuid"),
      (Hfield svc us w1 "image_uuid") by done.
    rewrite Hpa, Hps, Hpi, Hoa, His, Huuid_i.
    rewrite merge_level_params by done. cbn [rbind own inherits].
    rewrite merge_level_params by done. cbn [rbind own inherits].
    rewrite merge_level_params by done.
    cbn [rbind own inherits assert_string as_string].
    rewrite !set_prop_own by done. cbn [own].
    by rewrite (right_id_L ∅ (∪)). }
  assert (Hservice_uuid : inst' !! "service_uuid" = Some (VStr us)).
  { rewrite Hinst', (Hfield inst ui w2 "service_uuid"); done. }
  rewrite (deployInstance_provision_run inst' svc' (Some app') us ua _ w3
             Hservice_uuid Hget_s3 Hsvc_app Hget_a3 Hparams).
  cbn. rewrite Hff3. split; [done|].
  rewrite vm_requests_app. done.
Qed.

Lemma create_chain_then_deploy_witness :
  let w1 := (createApplication sample_app empty_world).2 in
  let w2 := (createService sample_svc w1).2 in
  let w3 := (createInstance sample_inst w2).2 in
  (deployInstance (record_after (createInstance sample_inst w2).1) w3).1 =
    Deployed [None] None /\
  vm_requests
    (trace (deployInstance (record_after (createInstance sample_inst w2).1) w3).2) =
    [ <["server_uuid" := VStr "44454c4c-4800-1034-804a-b2c04f354d31"]>
        (<["networks" := VArr [VStr "cda22a50-15bd-43cf-b379-be0cbac60cb4"]]>
          (<["ram" := VNum 256]>
            (<["brand" := VStr "joyent-minimal"]> sample_params))) ].
Proof.
  exact (create_chain_then_deploy sample_app sample_svc sample_inst
           empty_world "app1" "svc1" "inst1" "admin" "img-1" "a-1" "s-1" "i-1"
           {[ "login" := VStr "admin" ]} {[ "name" := VStr "smartos" ]}
           ∅ ∅ ∅
           (Some (<["a" := VNum 1]> (<["b" := VNum 1]> {[ "uuid" := VStr "forged" ]})))
           (Some (<["b" := VNum 2]> {[ "c" := VNum 2 ]}))
           (Some (<["c" := VNum 3]> {[ "d" := VNum 3 ]}))
           fault_free_empty_world keyed_by_uuid_empty_world
           eq_refl eq_refl eq_refl eq_refl eq_refl eq_refl eq_refl
           eq_refl eq_refl eq_refl eq_refl eq_refl eq_refl eq_refl eq_refl
           eq_refl eq_refl eq_refl eq_refl eq_refl eq_refl eq_refl eq_refl).
Defined.

(** ** What a deployment reads *)

Lemma getObject_reply_eq bucket uuid w w' :
  fault w' = fault w -> trace w' = trace w ->
  buckets w' !! bucket = buckets w !! bucket ->
  (getObject bucket uuid w').1 = (getObject bucket uuid w).1.
Proof.
  intros Hf Ht Hb. unfold getObject, bind. rewrite !findObjects_run. cbn.
  rewrite Hf, Ht, Hb. repeat case_match; simplify_eq; done.
Qed.

(** X13: [deployInstance] works from the record it is given and from the services
    and applications buckets: two worlds that agree on these two buckets, on
    the requests served and on the failures to come give the same outcome and
    the same requests.  The instances bucket is not read: whether the
    instance is stored plays no part. *)
Theorem deployInstance_reads_two_buckets (instance : obj) (w w' : world) :
  fault w' = fault w ->
  trace w' = trace w ->
  buckets w' !! SERVICES = buckets w !! SERVICES ->
  buckets w' !! APPLICATIONS = buckets w !! APPLICATIONS ->
  (deployInstance instance w').1 = (deployInstance instance w).1 /\
  trace (deployInstance instance w').2 = trace (deployInstance instance w).2.
Proof.
  intros Hf Ht Hs Ha. unfold deployInstance.
  destruct (as_string (instance !! "service_uuid")) as [uuid|]; [|done].
  unfold bind, getService, getApplication.
  pose proof (getObject_reply_eq SERVICES uuid w w' Hf Ht Hs) as Hr1.
  pose proof (getObject_world SERVICES uuid w) as Hw1.
  pose proof (getObject_world SERVICES uuid w') as Hw1'.
  destruct (getObject SERVICES uuid w) as [[err1 found1] w1].
  destruct (getObject SERVICES uuid w') as [[err1' found1'] w1'].
  cbn in Hr1, Hw1, Hw1'. simplify_eq.
  destruct err1 as [e|]; [cbn; by rewrite Ht|].
  destruct found1 as [service|]; [|cbn; by rewrite Ht].
  destruct (as_string (service !! "application_uuid")) as [app_uuid|];
    [|cbn; by rewrite Ht].
  set (find := FindObjects SERVICES ("(uuid=" +:+ uuid +:+ ")")).
  assert (Hr2 : (getObject APPLICATIONS app_uuid (set_trace (trace w' ++ [find]) w')).1 =
                (getObject APPLICATIONS app_uuid (set_trace (trace w ++ [find]) w)).1).
  { apply getObject_reply_eq; cbn; by rewrite ?Ht. }
  pose proof (getObject_world APPLICATIONS app_uuid (set_trace (trace w ++ [find]) w)) as Hw2.
  pose proof (getObject_world APPLICATIONS app_uuid (set_trace (trace w' ++ [find]) w')) as Hw2'.
  destruct (getObject APPLICATIONS app_uuid (set_trace (trace w ++ [find]) w))
    as [[err2 found2] w2].
  destruct (getObject APPLICATIONS app_uuid (set_trace (trace w' ++ [find]) w'))
    as [[err2' found2'] w2'].
  cbn in Hr2, Hw2, Hw2'. simplify_eq.
  destruct err2 as [e|]; [cbn; by rewrite Ht|].
  unfold deploy_step3.
  destruct (assembleParams found2 service instance) as [params|e];
    [|cbn; by rewrite Ht].
  unfold bind. rewrite !deployZone_run. cbn. by rewrite Hf, Ht.
Qed.

Lemma deployInstance_reads_two_buckets_witness :
  (getInstance "i-1" no_instance_world).1 = (None, None) /\
  (deployInstance sample_inst no_instance_world).1 = Deployed [None] None /\
  vm_requests (trace (deployInstance sample_inst no_instance_world).2) =
    [zone_fields sample_params].
Proof.
  destruct (deployInstance_reads_two_buckets sample_inst stocked_world no_instance_world
              eq_refl eq_refl eq_refl eq_refl) as [Hrun Htrace].
  split; [reflexivity|]. split.
  - etrans; [exact Hrun|]. reflexivity.
  - rewrite Htrace. reflexivity.
Defined.

(** ** Two creates under one uuid *)

(** X20: the creates make no check of their own that an identifier is free: on
    a world whose services answer, with the applications bucket in place and
    its records keyed by their uuid, a second application created under the
    uuid of a first (a string that is not empty and has no filter
    metacharacter) takes its place in the bucket, and the first is gone from
    get and from the bucket. *)
Theorem second_create_replaces_the_first (app1 app2 : obj)
    (name1 name2 owner1 owner2 u : string) (user1 user2 : obj) (w : world)
    (b : gmap string obj) :
  app1 !! "name" = Some (VStr name1) ->
  app1 !! "owner_uuid" = Some (VStr owner1) ->
  app1 !! "uuid" = Some (VStr u) ->
  app2 !! "name" = Some (VStr name2) ->
  app2 !! "owner_uuid" = Some (VStr owner2) ->
  app2 !! "uuid" = Some (VStr u) ->
  u <> EmptyString ->
  plain u = true ->
  users w !! owner1 = Some user1 ->
  users w !! owner2 = Some user2 ->
  fault_free w ->
  keyed_by_uuid w ->
  buckets w !! APPLICATIONS = Some b ->
  let w1 := (createApplication app1 w).2 in
  let w2 := (createApplication app2 w1).2 in
  outcome (createApplication app1 w).1 = Ok (None, app1) /\
  outcome (createApplication app2 w1).1 = Ok (None, app2) /\
  buckets w2 !! APPLICATIONS = Some (<[u := app2]> b) /\
  (getApplication u w2).1 = (None, Some app2).
Proof.
  intros Hn1 Ho1 Hu1 Hn2 Ho2 Hu2 Hne Hplain Hus1 Hus2 Hff Hk Hb w1 w2.
  assert (Htruthy : truthy (Some (VStr u)) = true).
  { cbn. destruct u; [done|reflexivity]. }
  assert (He : forall (o : obj) w0, o !! "uuid" = Some (VStr u) -> (ensure_uuid o w0).1 = o).
  { intros o w0 Ho. rewrite ensure_uuid_run, Ho, Htruthy. done. }
  destruct (createApplication_success app1 name1 owner1 u w b user1
              Hn1 Ho1 Hus1 Hff Hb) as (Hrun1 & Hbk1 & Hsame1).
  { by rewrite He. }
  rewrite (He app1 w Hu1) in Hrun1, Hbk1. fold w1 in Hbk1, Hsame1.
  assert (Hff1 : fault_free w1) by by apply (same_clients_fault_free w).
  assert (Hk1 : keyed_by_uuid w1) by by apply create_keyed.
  assert (Hus2' : users w1 !! owner2 = Some user2).
  { destruct Hsame1 as (-> & _). done. }
  assert (Hb1 : buckets w1 !! APPLICATIONS = Some (<[u := app1]> b)).
  { by rewrite Hbk1, lookup_insert_eq. }
  destruct (createApplication_success app2 name2 owner2 u w1 _ user2
              Hn2 Ho2 Hus2' Hff1 Hb1) as (Hrun2 & Hbk2 & Hsame2).
  { by rewrite He. }
  rewrite (He app2 w1 Hu2) in Hrun2, Hbk2. fold w2 in Hbk2, Hsame2.
  rewrite Hrun1, Hrun2. cbn. split; [done|]. split; [done|].
  rewrite insert_insert_eq in Hbk2.
  split; [by rewrite Hbk2, lookup_insert_eq|].
  apply (getObject_after_put APPLICATIONS u app2 w1 w2 (<[u := app1]> b)); try done.
  - by apply (same_clients_fault_free w1).
  - by rewrite insert_insert_eq.
Qed.

Lemma second_create_replaces_the_first_witness :
  (getApplication "a-1"
     (createApplication rival_app (createApplication sample_app empty_world).2).2).1 =
    (None, Some rival_app).
Proof.
  destruct (second_create_replaces_the_first sample_app rival_app
              "app1" "rival" "admin" "admin" "a-1"
              {[ "login" := VStr "admin" ]} {[ "login" := VStr "admin" ]}
              empty_world ∅ eq_refl eq_refl eq_refl eq_refl eq_refl eq_refl)
    as (_ & _ & _ & Hget).
  - intros H. discriminate H.
  - reflexivity.
  - reflexivity.
  - reflexivity.
  - exact fault_free_empty_world.
  - exact keyed_by_uuid_empty_world.
  - reflexivity.
  - exact Hget.
Defined.
